(** * Interaction graph and centrality ranking of [modules/superspreaders.py]

    A shallow embedding of [build_interaction_graph] (the loading of the two
    files, the resolution of the columns, the normalization of the two
    relations and the construction of the graph), of [compute_centralities],
    of the [head] selection used by [save_top_influencers] and [draw_graph],
    and of [detect_superspreaders], followed by the properties established
    for them.

    Conventions.
    - Strings are [string], holding the UTF-8 bytes of the Python string;
      account names and post ids are compared by exact equality, as the
      source does, and the order of the bytes is the order of the code
      points.
    - Integers are [Z] (Python integers are unbounded).
    - A [networkx.Graph] is a record of its node list, in insertion order
      (the order [G.nodes()] iterates in), and of its edge list, one entry per
      unordered pair of endpoints, in insertion order.
    - Centrality scores are IEEE doubles in the source.  The ranking code only
      stores and compares them, so they are modelled as rationals [Q]; the
      three networkx algorithms are parameters of [compute_centralities].
    - A pandas frame is the list of its column names and the list of its
      rows, a row giving a cell for each column name.  [str.strip] is a
      parameter.  The file system is a state that is passed along; testing a
      path, reading a file, creating a directory, writing the table and
      rendering the picture are parameters that read or change it and may
      raise. *)

From Stdlib Require Import List String Ascii ZArith QArith Bool Arith Lia.
From Stdlib Require Import Permutation Sorted Lqa DecimalString.
Import ListNotations.

Close Scope Q_scope.
Open Scope string_scope.
Open Scope list_scope.

(* ================================================================== *)
(** * Data model *)

(** The sentinel that [fillna("[deleted]")] writes for a missing value. *)
Definition deleted : string := "[deleted]".

(** A row of either normalized relation: [(post_id, author)]. *)
Definition row : Type := string * string.
Definition post_id (r : row) : string := fst r.
Definition author (r : row) : string := snd r.

(** The [type] attribute given to an edge when it is created. *)
Inductive edge_type : Type :=
| author_comment
| co_comment.

Record edge : Type := mkEdge
  { e_u : string; e_v : string; e_weight : Z; e_type : edge_type }.

Record Graph : Type := mkGraph
  { g_nodes : list string; g_edges : list edge }.

Definition empty_graph : Graph := mkGraph [] [].

(* ================================================================== *)
(** * The operations of [networkx.Graph] that the builder calls *)

Definition has_node (G : Graph) (u : string) : bool :=
  existsb (String.eqb u) (g_nodes G).

(** [G.add_node(u)]: a node that is already present keeps its place. *)
Definition add_node (G : Graph) (u : string) : Graph :=
  if has_node G u then G else mkGraph (g_nodes G ++ [u]) (g_edges G).

(** The graph is undirected: an edge stored as [(a, b)] joins [u] and [v]
    when [{a, b} = {u, v}]. *)
Definition same_pair (a b u v : string) : bool :=
  ((a =? u) && (b =? v)) || ((a =? v) && (b =? u)).

Definition joins (u v : string) (e : edge) : bool :=
  same_pair (e_u e) (e_v e) u v.

Definition has_edge (G : Graph) (u v : string) : bool :=
  existsb (joins u v) (g_edges G).

(** [G[u][v]["weight"]], when the edge exists. *)
Definition get_weight (G : Graph) (u v : string) : option Z :=
  option_map e_weight (find (joins u v) (g_edges G)).

(** The weight of [{u, v}], read as 0 when there is no such edge. *)
Definition weight0 (G : Graph) (u v : string) : Z :=
  match get_weight G u v with Some w => w | None => 0%Z end.

(** [G[u][v]["weight"] += w] on the entry of the edge. *)
Fixpoint increase_weight (es : list edge) (u v : string) (w : Z) : list edge :=
  match es with
  | [] => []
  | e :: rest =>
      if joins u v e
      then mkEdge (e_u e) (e_v e) (e_weight e + w) (e_type e) :: rest
      else e :: increase_weight rest u v w
  end.

(** [G.add_edge(u, v, weight=w, type=t)] for an edge that does not exist yet
    (the builder tests [has_edge] first): both endpoints become nodes. *)
Definition add_edge (G : Graph) (u v : string) (w : Z) (t : edge_type) : Graph :=
  let G' := add_node (add_node G u) v in
  mkGraph (g_nodes G') (g_edges G' ++ [mkEdge u v w t]).

(** The body shared by both passes:
    [if G.has_edge(a, b): G[a][b]["weight"] += w
     else: G.add_edge(a, b, weight=w, type=t)]. *)
Definition add_or_increase (G : Graph) (a b : string) (w : Z) (t : edge_type)
  : Graph :=
  if has_edge G a b
  then mkGraph (g_nodes G) (increase_weight (g_edges G) a b w)
  else add_edge G a b w t.

(** Sum of the weights of all edges. *)
Definition total_weight (G : Graph) : Z :=
  fold_right (fun e acc => (e_weight e + acc)%Z) 0%Z (g_edges G).

(* ================================================================== *)
(** * pandas and itertools helpers *)

(** [Series.unique()]: distinct values in order of first appearance. *)
Fixpoint unique (l : list string) : list string :=
  match l with
  | [] => []
  | x :: rest => x :: filter (fun y => negb (y =? x)) (unique rest)
  end.

(** [comments_df.merge(posts_df, on="post_id", how="left")]: every comment
    row, in order, once per post row with the same id (in post order), or once
    with a missing [post_author] when no post row matches. *)
Definition merged_row : Type := string * string * option string.

Definition matching_posts (posts : list row) (pid : string) : list row :=
  filter (fun p => post_id p =? pid) posts.

Definition merge_one (posts : list row) (c : row) : list merged_row :=
  match matching_posts posts (post_id c) with
  | [] => [(post_id c, author c, None)]
  | ms => map (fun p => (post_id c, author c, Some (author p))) ms
  end.

Definition merge_left (comments posts : list row) : list merged_row :=
  flat_map (merge_one posts) comments.

(** [itertools.combinations(l, 2)]. *)
Fixpoint combinations2 {A : Type} (l : list A) : list (A * A) :=
  match l with
  | [] => []
  | x :: rest => map (pair x) rest ++ combinations2 rest
  end.

(** [collections.Counter] over pairs: keys in order of first appearance. *)
Definition pair_eqb (p q : string * string) : bool :=
  (fst p =? fst q) && (snd p =? snd q).

Fixpoint counter_incr (k : string * string) (c : list (string * string * Z))
  : list (string * string * Z) :=
  match c with
  | [] => [(k, 1%Z)]
  | (k', n) :: rest =>
      if pair_eqb k k' then (k', (n + 1)%Z) :: rest
      else (k', n) :: counter_incr k rest
  end.

Definition Counter (l : list (string * string)) : list (string * string * Z) :=
  fold_left (fun c k => counter_incr k c) l [].

(** [groupby("post_id")]: one group per distinct id, groups in ascending
    order of the id, rows of a group in their original order. *)
Fixpoint insert_key (k : string) (l : list string) : list string :=
  match l with
  | [] => [k]
  | x :: rest => if String.leb k x then k :: l else x :: insert_key k rest
  end.

Definition sort_keys (l : list string) : list string :=
  fold_right insert_key [] l.

Definition group_of (comments : list row) (pid : string) : list row :=
  filter (fun c => post_id c =? pid) comments.

Definition groupby (comments : list row) : list (string * list row) :=
  map (fun pid => (pid, group_of comments pid))
      (sort_keys (unique (map post_id comments))).

(* ================================================================== *)
(** * [build_interaction_graph], lines 107-150 *)

(** One iteration of the loop over [merged.iterrows()]: the pair appended to
    [author_comment_pairs], or nothing when the iteration hits [continue]. *)
Definition reply_pair (r : merged_row) : list (string * string) :=
  let '(_, commenter, pa) := r in
  let post_author := match pa with Some a => a | None => deleted end in
  if (commenter =? "") || (commenter =? deleted) then []
  else if commenter =? post_author then []
  else [(post_author, commenter)].

Definition author_comment_pairs (merged : list merged_row)
  : list (string * string) :=
  flat_map reply_pair merged.

(** The pairs one comment row adds to [author_comment_pairs]. *)
Definition reply_pairs_of_comment (posts : list row) (c : row)
  : list (string * string) :=
  author_comment_pairs (merge_left [c] posts).

(** One iteration of [for (a, b), w in counter_ac.items()]. *)
Definition reply_step (min_edge_weight : Z) (G : Graph)
    (item : string * string * Z) : Graph :=
  let '((a, b), w) := item in
  if (min_edge_weight <=? w)%Z then add_or_increase G a b w author_comment
  else G.

Definition add_reply_edges (min_edge_weight : Z)
    (counter_ac : list (string * string * Z)) (G : Graph) : Graph :=
  fold_left (reply_step min_edge_weight) counter_ac G.

(** One iteration of [for u, v in combinations(commenters, 2)]. *)
Definition co_comment_step (G : Graph) (uv : string * string) : Graph :=
  let '(u, v) := uv in
  if u =? v then G else add_or_increase G u v 1 co_comment.

(** The body of [for pid, group in comments_df.groupby("post_id")]. *)
Definition co_comment_group (G : Graph) (group : list row) : Graph :=
  let commenters := unique (map author group) in
  if (List.length commenters <? 2)%nat then G
  else fold_left co_comment_step (combinations2 commenters) G.

Definition add_co_comment_edges (comments : list row) (G : Graph) : Graph :=
  fold_left (fun G g => co_comment_group G (snd g)) (groupby comments) G.

(** The pairs that get past [if u == v: continue]. *)
Definition distinct_pair (uv : string * string) : bool :=
  negb (fst uv =? snd uv).

(** The pairs of a group whose weight the co-comment pass increments. *)
Definition co_increments (group : list row) : list (string * string) :=
  let commenters := unique (map author group) in
  if (List.length commenters <? 2)%nat then []
  else filter distinct_pair (combinations2 commenters).

Section Builder.

(** [all_users] is a Python [set]: the order in which [for u in all_users]
    visits it depends on string hashing.  [set_iter] stands for that order:
    it is given the members (the distinct post authors, then the distinct
    comment authors; a name in both is listed twice) and returns them in the
    order of iteration.  [add_node] ignores a name it has already seen. *)
Variable set_iter : list string -> list string.

Definition all_users (posts comments : list row) : list string :=
  set_iter (unique (map author posts) ++ unique (map author comments)).

(** The graph after [for u in all_users: G.add_node(u)]. *)
Definition node_graph (posts comments : list row) : Graph :=
  fold_left add_node (all_users posts comments) empty_graph.

(** The graph after the author <-> commenter pass (line 135). *)
Definition reply_graph (posts comments : list row) (min_edge_weight : Z)
  : Graph :=
  add_reply_edges min_edge_weight
    (Counter (author_comment_pairs (merge_left comments posts)))
    (node_graph posts comments).

(** The returned graph. *)
Definition build_interaction_graph (posts comments : list row)
    (min_edge_weight : Z) : Graph :=
  add_co_comment_edges comments (reply_graph posts comments min_edge_weight).

End Builder.

(** An iteration order for examples: members in order of first appearance. *)
Definition first_seen (l : list string) : list string := unique l.

(* ================================================================== *)
(** * Comment-side column resolution, lines 71-94 *)

(** Failures of the resolution: the only one the code can raise is the
    [IndexError] of [comments_df.columns[0]] on a frame without columns. *)
Inductive exn : Type :=
| IndexError.

Definition result (A : Type) : Type := exn + A.
Definition ret {A : Type} (a : A) : result A := inr a.
Definition raise {A : Type} (e : exn) : result A := inl e.
Definition bind {A B : Type} (m : result A) (k : A -> result B) : result B :=
  match m with inl e => inl e | inr a => k a end.

Notation "x <- m ;; k" := (bind m (fun x => k))
  (at level 61, m at next level, right associativity).

(** [str.lower()] on one ASCII character: the letters A-Z. *)
Definition lower_ascii (c : ascii) : ascii :=
  let n := nat_of_ascii c in
  if ((65 <=? n) && (n <=? 90))%nat then ascii_of_nat (n + 32) else c.

(** [str.lower()] on the UTF-8 bytes of a string.  Besides A-Z, two
    characters outside ASCII have a lower case with an ASCII letter in it:
    U+212A KELVIN SIGN (bytes E2 84 AA) becomes [k], and U+0130 (bytes C4 B0)
    becomes [i] followed by U+0307 (bytes CC 87).  Every other character
    outside ASCII has a lower case outside ASCII; the code only compares the
    result with ASCII names, which cannot tell it from the original, and
    the bytes of such a character are left as they are. *)
Fixpoint lower (s : string) : string :=
  match s with
  | EmptyString => EmptyString
  | String c rest =>
      match rest with
      | EmptyString => String (lower_ascii c) EmptyString
      | String c1 rest1 =>
          if Ascii.eqb c (ascii_of_nat 196) && Ascii.eqb c1 (ascii_of_nat 176)
          then String "i"
                 (String (ascii_of_nat 204)
                    (String (ascii_of_nat 135) (lower rest1)))
          else
            match rest1 with
            | EmptyString => String (lower_ascii c) (lower rest)
            | String c2 rest2 =>
                if Ascii.eqb c (ascii_of_nat 226)
                   && Ascii.eqb c1 (ascii_of_nat 132)
                   && Ascii.eqb c2 (ascii_of_nat 170)
                then String "k" (lower rest2)
                else String (lower_ascii c) (lower rest)
            end
      end
  end.

(** [needle in hay] on strings. *)
Fixpoint contains (needle hay : string) : bool :=
  String.prefix needle hay ||
  match hay with
  | EmptyString => false
  | String _ rest => contains needle rest
  end.

(** [lc in (n1, n2, ...)]. *)
Definition in_names (lc : string) (names : list string) : bool :=
  existsb (String.eqb lc) names.

Definition comment_post_names : list string :=
  ["post_id"; "link_id"; "post"; "permalink"; "url"].

Definition comment_author_names : list string :=
  ["author"; "comment_author"; "user"; "username"; "by"].

Definition is_comment_post_name (c : string) : bool :=
  in_names (lower c) comment_post_names.

Definition looks_like_post_ref (c : string) : bool :=
  contains "post" (lower c) || contains "link" (lower c) ||
  contains "perma" (lower c) || contains "url" (lower c).

Definition is_comment_author_name (c : string) : bool :=
  in_names (lower c) comment_author_names.

(** [columns[i]], raising [IndexError] out of range. *)
Definition column_at (columns : list string) (i : nat) : result string :=
  match nth_error columns i with
  | Some c => ret c
  | None => raise IndexError
  end.

Definition comment_post_col (columns : list string) : result string :=
  match find is_comment_post_name columns with
  | Some c => ret c
  | None =>
      match find looks_like_post_ref columns with
      | Some c => ret c
      | None => column_at columns 0
      end
  end.

Definition comment_author_col (columns : list string) : result string :=
  match find is_comment_author_name columns with
  | Some c => ret c
  | None =>
      if (1 <? List.length columns)%nat then column_at columns 1
      else column_at columns 0
  end.

(** Both columns, in the order the source resolves them. *)
Definition resolve_comment_columns (columns : list string)
  : result (string * string) :=
  p <- comment_post_col columns ;;
  a <- comment_author_col columns ;;
  ret (p, a).

(* ================================================================== *)
(** * [compute_centralities] *)

(** One row of the returned frame. *)
Record centrality_row : Type := mkRow
  { user : string; degree : Q; betweenness : Q; pagerank : Q }.

(** A dictionary from nodes to scores, read with [d.get(n, 0.0)]. *)
Definition scores : Type := string -> option Q.

Definition get_score (d : scores) (n : string) : Q :=
  match d n with Some x => x | None => 0%Q end.

(** An exception raised by [nx.pagerank], e.g. its failure to converge. *)
Inductive pagerank_failure : Type :=
| PowerIterationFailedConvergence
| OtherException.

(** Comparison of the sort key [(pagerank, degree, betweenness)]. *)
Definition key_compare (a b : centrality_row) : comparison :=
  match Qcompare (pagerank a) (pagerank b) with
  | Eq =>
      match Qcompare (degree a) (degree b) with
      | Eq => Qcompare (betweenness a) (betweenness b)
      | c => c
      end
  | c => c
  end.

Definition key_gtb (a b : centrality_row) : bool :=
  match key_compare a b with Gt => true | _ => false end.

Definition key_eqb (a b : centrality_row) : bool :=
  match key_compare a b with Eq => true | _ => false end.

(** [df.sort_values(by=[...], ascending=False)]: with several keys pandas
    sorts stably, so rows with equal keys keep their relative order. *)
Fixpoint insert_desc (x : centrality_row) (l : list centrality_row)
  : list centrality_row :=
  match l with
  | [] => [x]
  | y :: rest => if key_gtb y x then y :: insert_desc x rest else x :: l
  end.

Definition sort_values_desc (l : list centrality_row) : list centrality_row :=
  fold_right insert_desc [] l.

Section Centralities.

(** The three networkx algorithms.  [nx.pagerank] may raise. *)
Variable degree_centrality : Graph -> scores.
Variable betweenness_centrality : Graph -> scores.
Variable nx_pagerank : Graph -> pagerank_failure + scores.

(** [try: pr = nx.pagerank(G, weight="weight")
     except Exception: pr = {n: 0.0 for n in G.nodes()}]. *)
Definition pagerank_or_zero (G : Graph) : scores :=
  match nx_pagerank G with
  | inr pr => pr
  | inl _ => fun n => if has_node G n then Some 0%Q else None
  end.

(** The list [rows], one entry per node in the order of [G.nodes()]. *)
Definition centrality_rows (G : Graph) : list centrality_row :=
  let deg := degree_centrality G in
  let btw := betweenness_centrality G in
  let pr := pagerank_or_zero G in
  map (fun n => mkRow n (get_score deg n) (get_score btw n) (get_score pr n))
      (g_nodes G).

(** The returned frame, as the list of its rows; [None] is Python's
    [None]. *)
Definition compute_centralities (G : option Graph) : list centrality_row :=
  match G with
  | None => []
  | Some G =>
      if (List.length (g_nodes G) =? 0)%nat then []
      else sort_values_desc (centrality_rows G)
  end.

End Centralities.

(* ================================================================== *)
(** * Top-N selection: [save_top_influencers] and [draw_graph] *)

(** [df.head(n)], that is [df.iloc[:n]]: the first [n] rows for [n >= 0],
    all rows but the last [-n] for [n < 0]. *)
Definition head {A : Type} (l : list A) (n : Z) : list A :=
  if (0 <=? n)%Z then firstn (Z.to_nat n) l
  else firstn (List.length l - Z.to_nat (- n)) l.

(** The rows that [save_top_influencers] writes to the CSV file. *)
Definition save_top_influencers (df_central : list centrality_row) (top_n : Z)
  : list centrality_row :=
  head df_central top_n.

(** [top_nodes] of [draw_graph]. *)
Definition top_nodes (centrality_df : list centrality_row) (top_n : Z)
  : list string :=
  map user (head centrality_df top_n).


(* ================================================================== *)
(** * Oracles for concrete runs *)

(** networkx on a graph without edges and with at least two nodes: degree
    and betweenness centrality are 0 for every node and PageRank is uniform,
    [1/|V|]. *)
Definition edgeless_zero (G : Graph) : scores :=
  fun n => if has_node G n then Some 0%Q else None.

Definition edgeless_pagerank (G : Graph) : pagerank_failure + scores :=
  inr (fun n => if has_node G n
                then Some (1 # Pos.of_nat (List.length (g_nodes G)))%Q
                else None).

Definition failing_pagerank (G : Graph) : pagerank_failure + scores :=
  inl PowerIterationFailedConvergence.

(* ================================================================== *)
(** * Vocabulary of the statements *)

(** The weight found in a list of edges for the pair [{u, v}]. *)
Definition edges_weight (es : list edge) (u v : string) : Z :=
  match find (joins u v) es with Some e => e_weight e | None => 0%Z end.

(** The weight that a list of weighted pairs puts on [{u, v}]. *)
Fixpoint pair_total (u v : string) (incs : list (string * string * Z)) : Z :=
  match incs with
  | [] => 0%Z
  | ((a, b), w) :: rest =>
      ((if same_pair a b u v then w else 0) + pair_total u v rest)%Z
  end.

(** How many pairs of a list name [{u, v}], in either order. *)
Definition pair_count (u v : string) (l : list (string * string)) : Z :=
  pair_total u v (map (fun p => (p, 1%Z)) l).

(** The entries of [counter_ac] that pass [w >= min_edge_weight]. *)
Definition kept (min_edge_weight : Z) (counter_ac : list (string * string * Z))
  : list (string * string * Z) :=
  filter (fun item => (min_edge_weight <=? snd item)%Z) counter_ac.

(** The co-comment increments that [{u, v}] receives over all groups. *)
Definition co_total (u v : string) (comments : list row) : Z :=
  fold_right (fun g acc => (pair_count u v (co_increments (snd g)) + acc)%Z)
             0%Z (groupby comments).

(** Membership in a list of names, as a boolean. *)
Definition mem (x : string) (l : list string) : bool :=
  existsb (String.eqb x) l.

(** Every node and every edge endpoint of [G] satisfies [P]. *)
Definition confined (P : string -> Prop) (G : Graph) : Prop :=
  (forall n, In n (g_nodes G) -> P n) /\
  (forall e, In e (g_edges G) -> P (e_u e) /\ P (e_v e)).

(** Every edge of [G] weighs at least [m]. *)
Definition weights_at_least (m : Z) (G : Graph) : Prop :=
  Forall (fun e => (m <= e_weight e)%Z) (g_edges G).

(** [a] ranks at least as high as [b]: the key of [a] is not below the key of
    [b] in the order pagerank, then degree, then betweenness. *)
Definition key_ge (a b : centrality_row) : Prop := key_compare a b <> Lt.

(* ================================================================== *)
(** * [build_interaction_graph], lines 24-105: loading and normalizing *)

(** A cell read by [pd.read_csv(path, dtype=str)]: a string, or [None] for a
    missing value (NaN). *)
Definition cell : Type := option string.

(** A data frame: its column names in order, and its rows, each giving the
    cell of every column name. *)
Record DataFrame : Type := mkFrame
  { df_columns : list string; df_rows : list (string -> cell) }.

(** [name in df.columns]. *)
Definition has_column (df : DataFrame) (name : string) : bool :=
  mem name (df_columns df).

(** [df[name] = values], where [value i r] is the value for the row [r] at
    position [i]: an existing column is overwritten, a new one is appended. *)
Definition assign (df : DataFrame) (name : string)
    (value : nat -> (string -> cell) -> cell) : DataFrame :=
  mkFrame
    (if has_column df name then df_columns df else df_columns df ++ [name])
    (map (fun ir => fun c => if String.eqb c name then value (fst ir) (snd ir)
                             else snd ir c)
         (combine (seq 0 (List.length (df_rows df))) (df_rows df))).

(** What the loading and normalizing part can raise. *)
(** An exception raised inside a library call (pandas, os, matplotlib),
    given by the name of its class. *)
Inductive library_error : Type :=
| LibraryError (class_name : string).

Inductive build_error : Type :=
| FileNotFoundError (message : string)
| ColumnError (e : exn)
| KeyError (name : string)
| Raised (e : library_error).

(** A library call made from the code: its exception propagates. *)
Definition call {A : Type} (m : library_error + A) : build_error + A :=
  match m with inl e => inl (Raised e) | inr a => inr a end.

Definition bind_build {A B : Type} (m : build_error + A)
    (k : A -> build_error + B) : build_error + B :=
  match m with inl e => inl e | inr a => k a end.

Notation "x <-- m ;; k" := (bind_build m (fun x => k))
  (at level 61, m at next level, right associativity).

(** [df[[a, b]]], as the list of the pairs of cells of its rows; a name
    that is no column raises [KeyError]. *)
Definition select2 (df : DataFrame) (a b : string)
  : build_error + list (cell * cell) :=
  if has_column df a then
    if has_column df b then inr (map (fun r => (r a, r b)) (df_rows df))
    else inl (KeyError b)
  else inl (KeyError a).

(** [.fillna("[deleted]")] on one cell. *)
Definition fillna (c : cell) : string :=
  match c with Some s => s | None => deleted end.

(** [str(i)] for a row position. *)
Definition index_str (i : nat) : string :=
  NilEmpty.string_of_uint (Nat.to_uint i).

Definition post_id_names : list string :=
  ["id"; "post_id"; "link_id"; "name"; "permalink"; "url"].

Definition post_author_names : list string :=
  ["author"; "post_author"; "username"; "by"].

Definition is_post_id_name (c : string) : bool :=
  in_names (lower c) post_id_names.

Definition is_post_author_name (c : string) : bool :=
  in_names (lower c) post_author_names.

Definition looks_like_id (c : string) : bool :=
  contains "id" (lower c) || contains "link" (lower c) ||
  contains "perma" (lower c) || contains "url" (lower c).

Definition looks_like_author (c : string) : bool :=
  contains "author" (lower c) || contains "user" (lower c) ||
  contains "by" (lower c).

(** Lines 33-53: the exact names first, then the names that look alike;
    [None] is Python's [None]. *)
Definition post_id_col (columns : list string) : option string :=
  match find is_post_id_name columns with
  | Some c => Some c
  | None => find looks_like_id columns
  end.

Definition post_author_col (columns : list string) : option string :=
  match find is_post_author_name columns with
  | Some c => Some c
  | None => find looks_like_author columns
  end.

(** Lines 56-58: the placeholder author column.
    [posts_df.get("author", "[unknown]")] is the column [author] when there
    is one, the constant otherwise. *)
Definition with_post_author (df : DataFrame) (col : option string)
  : DataFrame * string :=
  match col with
  | Some c => (df, c)
  | None =>
      (assign df "post_author"
         (fun _ r => if has_column df "author" then r "author"
                     else Some "[unknown]"),
       "post_author")
  end.

(** Lines 59-69: the synthetic id column. *)
Definition with_post_id (df : DataFrame) (col : option string)
  : DataFrame * string :=
  match col with
  | Some c => (df, c)
  | None =>
      if has_column df "permalink"
      then (assign df "post_id" (fun _ r => r "permalink"), "post_id")
      else if has_column df "url"
      then (assign df "post_id" (fun _ r => r "url"), "post_id")
      else (assign df "post_id" (fun i _ => Some (index_str i)), "post_id")
  end.

Section Loading.

(** [str.strip()], applied to the post ids of both relations. *)
Variable strip : string -> string.

(** The iteration order of the set [all_users], as for [Builder]. *)
Variable set_iter : list string -> list string.

(** The file system, as far as the code reads it and changes it. *)
Variable world : Type.

(** [os.path.exists(path)]. *)
Variable path_exists : world -> string -> bool.

(** [pd.read_csv(path, dtype=str)] on a path that exists: the frame, or the
    exception that it raises (an [EmptyDataError] on a file without columns,
    a [ParserError], ...). *)
Variable read_csv : world -> string -> library_error + DataFrame.

(** Lines 97-98 and 104, or 100-101 and 105: the two columns, missing values
    filled, the post id stripped. *)
Definition normalize_rows (df : DataFrame) (id_col author_col : string)
  : build_error + list row :=
  cells <-- select2 df id_col author_col ;;
  inr (map (fun ia => (strip (fillna (fst ia)), fillna (snd ia))) cells).

(** Lines 32-69: the post columns, with the placeholder columns added to
    the frame when a role is unresolved. *)
Definition prepare_posts (posts_df : DataFrame) : DataFrame * string * string :=
  let id_col := post_id_col (df_columns posts_df) in
  let author_col := post_author_col (df_columns posts_df) in
  let '(df1, post_author_col) := with_post_author posts_df author_col in
  let '(df2, post_id_col) := with_post_id df1 id_col in
  (df2, post_id_col, post_author_col).

Definition normalize_posts (posts_df : DataFrame) : build_error + list row :=
  let '(df, post_id_col, post_author_col) := prepare_posts posts_df in
  normalize_rows df post_id_col post_author_col.

(** Lines 71-94: the comment columns. *)
Definition comment_columns (comments_df : DataFrame)
  : build_error + string * string :=
  match resolve_comment_columns (df_columns comments_df) with
  | inl e => inl (ColumnError e)
  | inr cols => inr cols
  end.

Definition normalize_comments (comments_df : DataFrame)
  : build_error + list row :=
  cols <-- comment_columns comments_df ;;
  normalize_rows comments_df (fst cols) (snd cols).

(** Lines 9-13: [None] for a path that does not exist. *)
Definition _read_csv_flex (w : world) (path : string)
  : build_error + option DataFrame :=
  if path_exists w path then
    df <-- call (read_csv w path) ;;
    inr (Some df)
  else inr None.

(** The whole function, from the two paths, in the order of the source:
    both files are read, then their presence is tested, then the post
    columns and the comment columns are resolved, then both relations are
    normalized and the graph is built. *)
Definition build_interaction_graph_csv (w : world)
    (posts_csv comments_csv : string) (min_edge_weight : Z)
  : build_error + Graph :=
  posts_df <-- _read_csv_flex w posts_csv ;;
  comments_df <-- _read_csv_flex w comments_csv ;;
  match posts_df with
  | None =>
      inl (FileNotFoundError ("Posts file not found: " ++ posts_csv)%string)
  | Some posts_df =>
      match comments_df with
      | None =>
          inl (FileNotFoundError
                 ("Comments file not found: " ++ comments_csv)%string)
      | Some comments_df =>
          let '(df, post_id_col, post_author_col) := prepare_posts posts_df in
          cols <-- comment_columns comments_df ;;
          posts <-- normalize_rows df post_id_col post_author_col ;;
          comments <-- normalize_rows comments_df (fst cols) (snd cols) ;;
          inr (build_interaction_graph set_iter posts comments
                 min_edge_weight)
      end
  end.

(* ------------------------------------------------------------------ *)
(** ** [save_top_influencers], [draw_graph] and [detect_superspreaders],
       with what they do to the file system *)

Variable degree_centrality : Graph -> scores.
Variable betweenness_centrality : Graph -> scores.
Variable nx_pagerank : Graph -> pagerank_failure + scores.

(** [os.path.dirname(path)]. *)
Variable dirname : string -> string.

(** [os.makedirs(path, exist_ok=True)]. *)
Variable makedirs : string -> world -> library_error + world.

(** [rows.to_csv(path, index=False)]. *)
Variable to_csv : list centrality_row -> string -> world
                  -> library_error + world.

(** Lines 190-204 of [draw_graph]: the subgraph on [top_nodes], its layout,
    the drawing and [plt.savefig(out_png, ...)]. *)
Variable render : Graph -> list centrality_row -> list string -> string
                  -> world -> library_error + world.

(** Lines 177-180. *)
Definition save_top_influencers_to (df_central : list centrality_row)
    (path : string) (top_n : Z) (w : world) : build_error + world :=
  w1 <-- call (makedirs (dirname path) w) ;;
  call (to_csv (save_top_influencers df_central top_n) path w1).

(** Lines 182-204: with no top node, a warning and nothing else. *)
Definition draw_graph (G : Graph) (centrality_df : list centrality_row)
    (out_png : string) (top_n : Z) (w : world) : build_error + world :=
  w1 <-- call (makedirs (dirname out_png) w) ;;
  match top_nodes centrality_df top_n with
  | [] => inr w1
  | nodes => call (render G centrality_df nodes out_png w1)
  end.

(** Lines 206-221: the returned frame, and the file system it leaves. *)
Definition detect_superspreaders (w : world)
    (posts_csv comments_csv out_csv out_graph : string) (top_n : Z)
  : build_error + list centrality_row * world :=
  G <-- build_interaction_graph_csv w posts_csv comments_csv 1 ;;
  let df_cent :=
    compute_centralities degree_centrality betweenness_centrality nx_pagerank
      (Some G) in
  w1 <-- save_top_influencers_to df_cent out_csv top_n w ;;
  w2 <-- draw_graph G df_cent out_graph top_n w1 ;;
  inr (df_cent, w2).

End Loading.

(* ------------------------------------------------------------------ *)
(** ** Frames for concrete runs *)

(** A row given by the cells of its columns. *)
Definition row_of (cells : list (string * cell)) : string -> cell :=
  fun c =>
    match find (fun kv => String.eqb (fst kv) c) cells with
    | Some kv => snd kv
    | None => None
    end.

(** A frame given by its column names and the cells of its rows. *)
Definition frame_of (columns : list string) (rows : list (list cell))
  : DataFrame :=
  mkFrame columns (map (fun r => row_of (combine columns r)) rows).

(** No stripping: for post ids without white space at their ends. *)
Definition no_strip (s : string) : string := s.

(** A file system for concrete runs: every path exists but [missing.csv];
    [posts.csv] and [comments.csv] hold one row each, and reading any other
    file raises. *)
Definition sample_exists (_ : unit) (path : string) : bool :=
  negb (String.eqb path "missing.csv").

Definition sample_read_csv (_ : unit) (path : string)
  : library_error + DataFrame :=
  if String.eqb path "posts.csv"
  then inr (frame_of ["id"; "author"] [[Some "p1"; Some "alice"]])
  else if String.eqb path "comments.csv"
  then inr (frame_of ["post_id"; "author"] [[Some "p1"; Some "bob"]])
  else if String.eqb path "removed.csv"
  then inr (frame_of ["post_id"; "author"] [[Some "p1"; None]])
  else inl (LibraryError "EmptyDataError").

(** [posixpath.dirname]: the path up to its last ["/"], without the slashes
    at its end unless it consists of slashes only; [""] for a path without
    ["/"]. *)
Fixpoint head_of_path (p : string) : option string :=
  match p with
  | EmptyString => None
  | String c rest =>
      match head_of_path rest with
      | Some h => Some (String c h)
      | None => if Ascii.eqb c "/" then Some (String c EmptyString) else None
      end
  end.

Fixpoint rstrip_sep (s : string) : string :=
  match s with
  | EmptyString => EmptyString
  | String c rest =>
      let r := rstrip_sep rest in
      if Ascii.eqb c "/" && String.eqb r "" then EmptyString else String c r
  end.

Definition posix_dirname (p : string) : string :=
  match head_of_path p with
  | None => ""
  | Some h => if String.eqb (rstrip_sep h) "" then h else rstrip_sep h
  end.

(** [os.makedirs(d, exist_ok=True)] raises [FileNotFoundError] for the
    empty path and succeeds otherwise in the sample file system; writing
    the table and saving the figure succeed. *)
Definition sample_makedirs (d : string) (w : unit) : library_error + unit :=
  if String.eqb d "" then inl (LibraryError "FileNotFoundError") else inr w.

Definition sample_to_csv (rows : list centrality_row) (path : string)
    (w : unit) : library_error + unit := inr w.

Definition sample_render (G : Graph) (centrality_df : list centrality_row)
    (nodes : list string) (out_png : string) (w : unit)
  : library_error + unit := inr w.

(* ------------------------------------------------------------------ *)
(** ** The files that the pipeline of [main.py] hands over *)

(** The columns of [output/raw_posts.csv]: the keys of the records that
    [fetch_all] collects ([reddit_fetch.py]), written by [main]. *)
Definition raw_posts_columns : list string :=
  ["subreddit"; "title"; "score"; "num_comments"; "created_utc"; "url"].

(** The columns of [output/comments_raw.csv], written by
    [process_sentiment] ([sentiment_analysis.py]). *)
Definition comments_raw_columns : list string :=
  ["post_id"; "comment_author"].

(** Every edge of [G] satisfies [Q] at its endpoints. *)
Definition edges_satisfy (Q : string -> string -> Prop) (G : Graph) : Prop :=
  forall e, In e (g_edges G) -> Q (e_u e) (e_v e).

(** The endpoints of every edge of [G] are nodes of [G]. *)
Definition endpoints_are_nodes (G : Graph) : Prop :=
  forall e, In e (g_edges G) -> In (e_u e) (g_nodes G) /\ In (e_v e) (g_nodes G).

(** Number of occurrences of a pair in a list. *)
Fixpoint count_pair (k : string * string) (l : list (string * string)) : Z :=
  match l with
  | [] => 0%Z
  | p :: rest => ((if pair_eqb k p then 1 else 0) + count_pair k rest)%Z
  end.

(** The count a [Counter] holds for a key, 0 when the key is absent. *)
Fixpoint lookup_count (k : string * string) (c : list (string * string * Z))
  : Z :=
  match c with
  | [] => 0%Z
  | (k', n) :: rest => if pair_eqb k k' then n else lookup_count k rest
  end.

(** What a count of [n] occurrences adds in the reply pass: itself when it
    is positive and passes [n >= min_edge_weight], nothing otherwise. *)
Definition threshold_count (min_edge_weight n : Z) : Z :=
  if ((min_edge_weight <=? n) && (1 <=? n))%Z then n else 0%Z.

(** Sum of the counts of a list of weighted pairs. *)
Definition sum_counts (c : list (string * string * Z)) : Z :=
  fold_right (fun item acc => (snd item + acc)%Z) 0%Z c.

(** Whether [u] and [v] are distinct commenters of the group of [pid]. *)
Definition shares_group (comments : list row) (u v pid : string) : bool :=
  negb (String.eqb u v)
  && mem u (map author (group_of comments pid))
  && mem v (map author (group_of comments pid)).

(** The number of unordered pairs of distinct commenters, summed over the
    post-id groups of the comment relation. *)
Definition commenter_pairs (comments : list row) : nat :=
  fold_right
    (fun g acc =>
       let k := List.length (unique (map author (snd g))) in
       (k * (k - 1) / 2 + acc)%nat)
    0%nat (groupby comments).

(* ================================================================== *)
(** * Edge weights under [add_or_increase] *)

Ltac eqb_cases :=
  repeat match goal with
         | |- context [String.eqb ?x ?y] => destruct (String.eqb_spec x y)
         | H : context [String.eqb ?x ?y] |- _ =>
             destruct (String.eqb_spec x y)
         end;
  subst; simpl in *; try congruence; try tauto.

Lemma same_pair_true (a b u v : string) :
  same_pair a b u v = true <-> (a = u /\ b = v) \/ (a = v /\ b = u).
Proof.
  unfold same_pair. eqb_cases; split; intros; try tauto; try discriminate;
    intuition congruence.
Qed.

Lemma same_pair_swap (a b u v : string) :
  same_pair a b u v = same_pair a b v u.
Proof. unfold same_pair. eqb_cases. Qed.

Lemma same_pair_refl (a b : string) : same_pair a b a b = true.
Proof. unfold same_pair. eqb_cases. Qed.

(** Two names of the same unordered pair select the same edges. *)
Lemma joins_same_pair (a b u v : string) (e : edge) :
  same_pair a b u v = true -> joins a b e = joins u v e.
Proof.
  unfold joins. intros H. apply same_pair_true in H.
  destruct H as [[-> ->] | [-> ->]]; [reflexivity | apply same_pair_swap].
Qed.

(** An edge of another pair is not selected. *)
Lemma joins_other_pair (a b u v : string) (e : edge) :
  same_pair a b u v = false -> joins a b e = true -> joins u v e = false.
Proof.
  unfold joins. intros Hne Hj.
  destruct (same_pair (e_u e) (e_v e) u v) eqn:E; [| reflexivity].
  apply same_pair_true in Hj. apply same_pair_true in E.
  assert (same_pair a b u v = true) as Hs; [| congruence].
  apply same_pair_true. intuition congruence.
Qed.

Lemma weight0_edges (G : Graph) (u v : string) :
  weight0 G u v = edges_weight (g_edges G) u v.
Proof.
  unfold weight0, get_weight, edges_weight.
  destruct (find (joins u v) (g_edges G)); reflexivity.
Qed.

Lemma g_edges_add_node (G : Graph) (u : string) :
  g_edges (add_node G u) = g_edges G.
Proof. unfold add_node. destruct (has_node G u); reflexivity. Qed.

Lemma has_edge_weight0 (G : Graph) (u v : string) :
  has_edge G u v = false -> weight0 G u v = 0%Z.
Proof.
  rewrite weight0_edges. unfold has_edge, edges_weight. intros H.
  destruct (find (joins u v) (g_edges G)) eqn:F; [| reflexivity].
  apply find_some in F. destruct F as [Hin Hj].
  assert (existsb (joins u v) (g_edges G) = true) as Hex; [| congruence].
  apply existsb_exists. eauto.
Qed.

(** A pair of positive weight is an edge. *)
Lemma weight0_pos_has_edge (G : Graph) (u v : string) :
  (0 < weight0 G u v)%Z -> has_edge G u v = true.
Proof.
  intros H. destruct (has_edge G u v) eqn:E; [reflexivity |].
  apply has_edge_weight0 in E. lia.
Qed.

Lemma joins_reweighted (u v : string) (e : edge) (w : Z) :
  joins u v (mkEdge (e_u e) (e_v e) w (e_type e)) = joins u v e.
Proof. reflexivity. Qed.

Lemma edges_weight_increase (es : list edge) (a b u v : string) (w : Z) :
  existsb (joins a b) es = true ->
  edges_weight (increase_weight es a b w) u v
  = (edges_weight es u v + if same_pair a b u v then w else 0)%Z.
Proof.
  unfold edges_weight. induction es as [| e es IH]; simpl; [discriminate |].
  intros Hex. destruct (joins a b e) eqn:Ja.
  - cbn [find]. rewrite joins_reweighted.
    destruct (same_pair a b u v) eqn:S.
    + rewrite <- (joins_same_pair a b u v) by assumption.
      rewrite Ja. reflexivity.
    + rewrite (joins_other_pair a b u v e S Ja). lia.
  - simpl in Hex. cbn [find]. destruct (joins u v e) eqn:Ju.
    + destruct (same_pair a b u v) eqn:S; [| lia].
      rewrite (joins_same_pair a b u v) in Ja by assumption. congruence.
    + apply IH. assumption.
Qed.

Lemma edges_weight_app_new (es : list edge) (a b u v : string) (w : Z)
    (t : edge_type) :
  existsb (joins a b) es = false ->
  edges_weight (es ++ [mkEdge a b w t]) u v
  = (edges_weight es u v + if same_pair a b u v then w else 0)%Z.
Proof.
  unfold edges_weight. induction es as [| e es IH]; simpl; intros Hex.
  - unfold joins. simpl. destruct (same_pair a b u v); reflexivity.
  - apply orb_false_iff in Hex. destruct Hex as [Ja Hex].
    destruct (joins u v e) eqn:Ju.
    + destruct (same_pair a b u v) eqn:S; [| lia].
      rewrite (joins_same_pair a b u v) in Ja by assumption. congruence.
    + apply IH. assumption.
Qed.

(** The effect of one [add_or_increase] on every pair of accounts. *)
Lemma weight0_add_or_increase (G : Graph) (a b u v : string) (w : Z)
    (t : edge_type) :
  weight0 (add_or_increase G a b w t) u v
  = (weight0 G u v + if same_pair a b u v then w else 0)%Z.
Proof.
  rewrite !weight0_edges. unfold add_or_increase, has_edge.
  destruct (existsb (joins a b) (g_edges G)) eqn:Hex; simpl.
  - apply edges_weight_increase. assumption.
  - rewrite !g_edges_add_node. apply edges_weight_app_new. assumption.
Qed.

Lemma total_increase (es : list edge) (a b : string) (w : Z) :
  existsb (joins a b) es = true ->
  fold_right (fun e acc => (e_weight e + acc)%Z) 0%Z (increase_weight es a b w)
  = (fold_right (fun e acc => (e_weight e + acc)%Z) 0%Z es + w)%Z.
Proof.
  induction es as [| e es IH]; simpl; [discriminate |].
  destruct (joins a b e); simpl; intros H; [lia |].
  rewrite IH by assumption. lia.
Qed.

(** One [add_or_increase] adds exactly [w] to the sum of all weights. *)
Lemma total_weight_add_or_increase (G : Graph) (a b : string) (w : Z)
    (t : edge_type) :
  total_weight (add_or_increase G a b w t) = (total_weight G + w)%Z.
Proof.
  unfold total_weight, add_or_increase, has_edge.
  destruct (existsb (joins a b) (g_edges G)) eqn:Hex; simpl.
  - apply total_increase. assumption.
  - rewrite !g_edges_add_node. rewrite fold_right_app. simpl.
    generalize (g_edges G). intros es. induction es; simpl; lia.
Qed.

(* ================================================================== *)
(** * Weights after each pass *)

Lemma pair_total_app (u v : string) (l1 l2 : list (string * string * Z)) :
  pair_total u v (l1 ++ l2) = (pair_total u v l1 + pair_total u v l2)%Z.
Proof.
  induction l1 as [| [[a b] w] l1 IH]; simpl; [reflexivity | rewrite IH; lia].
Qed.

Lemma pair_count_app (u v : string) (l1 l2 : list (string * string)) :
  pair_count u v (l1 ++ l2) = (pair_count u v l1 + pair_count u v l2)%Z.
Proof. unfold pair_count. rewrite map_app. apply pair_total_app. Qed.

Lemma pair_count_cons (u v : string) (p : string * string)
    (l : list (string * string)) :
  pair_count u v (p :: l)
  = ((if same_pair (fst p) (snd p) u v then 1 else 0) + pair_count u v l)%Z.
Proof. destruct p. reflexivity. Qed.

Lemma pair_count_nonneg (u v : string) (l : list (string * string)) :
  (0 <= pair_count u v l)%Z.
Proof.
  induction l as [| p l IH]; [unfold pair_count; simpl; lia |].
  rewrite pair_count_cons. destruct (same_pair (fst p) (snd p) u v); lia.
Qed.

Lemma pair_count_In (u v a b : string) (l : list (string * string)) :
  In (a, b) l -> same_pair a b u v = true -> (1 <= pair_count u v l)%Z.
Proof.
  induction l as [| p l IH]; simpl; [tauto |].
  intros [-> | Hin] Hs; rewrite pair_count_cons.
  - simpl. rewrite Hs. pose proof (pair_count_nonneg u v l). lia.
  - specialize (IH Hin Hs). destruct (same_pair (fst p) (snd p) u v); lia.
Qed.

(** The author <-> commenter pass adds, on every pair, the counts that pass
    the threshold. *)
Lemma weight0_add_reply_edges (m : Z) (c : list (string * string * Z))
    (G : Graph) (u v : string) :
  weight0 (add_reply_edges m c G) u v
  = (weight0 G u v + pair_total u v (kept m c))%Z.
Proof.
  unfold add_reply_edges. revert G.
  induction c as [| [[a b] w] c IH]; intros G; simpl; [lia |].
  rewrite IH. destruct (m <=? w)%Z; simpl.
  - rewrite weight0_add_or_increase. lia.
  - lia.
Qed.

Lemma weight0_co_comment_steps (l : list (string * string)) (G : Graph)
    (u v : string) :
  weight0 (fold_left co_comment_step l G) u v
  = (weight0 G u v
     + pair_count u v (filter distinct_pair l))%Z.
Proof.
  revert G. induction l as [| [a b] l IH]; intros G; simpl.
  - unfold pair_count. simpl. lia.
  - rewrite IH. unfold distinct_pair at 2. simpl. destruct (a =? b); simpl.
    + lia.
    + rewrite weight0_add_or_increase, pair_count_cons. simpl. lia.
Qed.

(** What one group of the co-comment pass does to every pair. *)
Lemma weight0_co_comment_group (G : Graph) (group : list row) (u v : string) :
  weight0 (co_comment_group G group) u v
  = (weight0 G u v + pair_count u v (co_increments group))%Z.
Proof.
  unfold co_comment_group, co_increments.
  destruct (List.length (unique (map author group)) <? 2)%nat.
  - unfold pair_count. simpl. lia.
  - apply weight0_co_comment_steps.
Qed.

Lemma weight0_add_co_comment_edges (comments : list row) (G : Graph)
    (u v : string) :
  weight0 (add_co_comment_edges comments G) u v
  = (weight0 G u v + co_total u v comments)%Z.
Proof.
  unfold add_co_comment_edges, co_total. revert G.
  induction (groupby comments) as [| g gs IH]; intros G; simpl; [lia |].
  rewrite IH, weight0_co_comment_group. lia.
Qed.

Lemma co_total_nonneg (u v : string) (comments : list row) :
  (0 <= co_total u v comments)%Z.
Proof.
  unfold co_total. induction (groupby comments) as [| g gs IH]; simpl; [lia |].
  pose proof (pair_count_nonneg u v (co_increments (snd g))). lia.
Qed.

Lemma g_edges_add_nodes (l : list string) (G : Graph) :
  g_edges (fold_left add_node l G) = g_edges G.
Proof.
  revert G. induction l as [| x l IH]; intros G; simpl; [reflexivity |].
  rewrite IH. apply g_edges_add_node.
Qed.

Lemma weight0_node_graph (set_iter : list string -> list string)
    (posts comments : list row) (u v : string) :
  weight0 (node_graph set_iter posts comments) u v = 0%Z.
Proof.
  rewrite weight0_edges. unfold node_graph. rewrite g_edges_add_nodes.
  reflexivity.
Qed.

(** The weight of every pair in the graph after the reply pass. *)
Lemma weight0_reply_graph (set_iter : list string -> list string)
    (posts comments : list row) (m : Z) (u v : string) :
  weight0 (reply_graph set_iter posts comments m) u v
  = pair_total u v
      (kept m (Counter (author_comment_pairs (merge_left comments posts)))).
Proof.
  unfold reply_graph. rewrite weight0_add_reply_edges, weight0_node_graph. lia.
Qed.

(** The weight of every pair in the returned graph. *)
Lemma weight0_build (set_iter : list string -> list string)
    (posts comments : list row) (m : Z) (u v : string) :
  weight0 (build_interaction_graph set_iter posts comments m) u v
  = (weight0 (reply_graph set_iter posts comments m) u v
     + co_total u v comments)%Z.
Proof.
  unfold build_interaction_graph. apply weight0_add_co_comment_edges.
Qed.

(* ================================================================== *)
(** * [Counter] *)

Lemma pair_eqb_eq (p q : string * string) : pair_eqb p q = true <-> p = q.
Proof.
  destruct p as [a b], q as [c d]. unfold pair_eqb. simpl.
  rewrite andb_true_iff, !String.eqb_eq. split; intros H.
  - destruct H; congruence.
  - inversion H; auto.
Qed.

Lemma pair_total_counter_incr (u v : string) (k : string * string)
    (c : list (string * string * Z)) :
  pair_total u v (counter_incr k c)
  = (pair_total u v c + if same_pair (fst k) (snd k) u v then 1 else 0)%Z.
Proof.
  induction c as [| [[a b] n] c IH]; simpl.
  - destruct k. simpl. lia.
  - destruct (pair_eqb k (a, b)) eqn:E; simpl.
    + apply pair_eqb_eq in E. subst k. simpl.
      destruct (same_pair a b u v); lia.
    + rewrite IH. lia.
Qed.

Lemma pair_total_fold_counter (u v : string) (l : list (string * string))
    (c : list (string * string * Z)) :
  pair_total u v (fold_left (fun c k => counter_incr k c) l c)
  = (pair_total u v c + pair_count u v l)%Z.
Proof.
  revert c. induction l as [| k l IH]; intros c; simpl.
  - unfold pair_count. simpl. lia.
  - rewrite IH, pair_total_counter_incr, pair_count_cons. lia.
Qed.

(** The counts of a [Counter] add up, on every pair, to the number of
    occurrences of the pair. *)
Lemma pair_total_Counter (u v : string) (l : list (string * string)) :
  pair_total u v (Counter l) = pair_count u v l.
Proof. unfold Counter. rewrite pair_total_fold_counter. simpl. lia. Qed.

Lemma counter_incr_pos (k : string * string) (c : list (string * string * Z)) :
  Forall (fun item => (1 <= snd item)%Z) c ->
  Forall (fun item => (1 <= snd item)%Z) (counter_incr k c).
Proof.
  induction c as [| [k' n] c IH]; simpl; intros H.
  - constructor; [simpl; lia | constructor].
  - inversion H as [| ? ? Hn Hc]; subst. simpl in Hn.
    destruct (pair_eqb k k'); constructor; simpl; auto; lia.
Qed.

(** Every count of a [Counter] is at least 1. *)
Lemma Counter_pos (l : list (string * string)) :
  Forall (fun item => (1 <= snd item)%Z) (Counter l).
Proof.
  unfold Counter.
  assert (forall c, Forall (fun item => (1 <= snd item)%Z) c ->
            Forall (fun item => (1 <= snd item)%Z)
                   (fold_left (fun c k => counter_incr k c) l c)) as H.
  { induction l as [| k l IH]; intros c Hc; simpl; [assumption |].
    apply IH, counter_incr_pos, Hc. }
  apply H. constructor.
Qed.

Lemma counter_incr_keys (k : string * string) (c : list (string * string * Z))
    (item : string * string * Z) :
  In item (counter_incr k c) ->
  fst item = k \/ exists item', In item' c /\ fst item' = fst item.
Proof.
  induction c as [| [k' n] c IH]; simpl.
  - intros [<- | []]. left. reflexivity.
  - destruct (pair_eqb k k') eqn:E; simpl.
    + intros [<- | Hin]; right.
      * exists (k', n). simpl. auto.
      * exists item. auto.
    + intros [<- | Hin].
      * right. exists (k', n). simpl. auto.
      * destruct (IH Hin) as [Hk | [item' [Hin' Hf]]]; [left; assumption |].
        right. exists item'. auto.
Qed.

(** Every key of a [Counter] occurs in the counted list. *)
Lemma Counter_keys (l : list (string * string)) (item : string * string * Z) :
  In item (Counter l) -> In (fst item) l.
Proof.
  unfold Counter.
  assert (forall c k, (exists it, In it
             (fold_left (fun c k => counter_incr k c) l c) /\ fst it = k) ->
            In k l \/ exists it, In it c /\ fst it = k) as H.
  { induction l as [| x l IH]; intros c k; simpl.
    - intros H. right. assumption.
    - intros H. apply IH in H. destruct H as [H | [it [Hin Hf]]]; [tauto |].
      apply counter_incr_keys in Hin.
      destruct Hin as [Hx | [it' [Hin' Hf']]].
      + left. left. congruence.
      + right. exists it'. split; [assumption | congruence]. }
  intros Hin. destruct (H [] (fst item)) as [Hl | [it [[] _]]]; eauto.
Qed.

(** With a threshold of at most 1 every count is kept. *)
Lemma kept_all (m : Z) (c : list (string * string * Z)) :
  (m <= 1)%Z -> Forall (fun item => (1 <= snd item)%Z) c -> kept m c = c.
Proof.
  intros Hm. unfold kept. induction c as [| item c IH]; simpl; intros H.
  - reflexivity.
  - inversion H as [| ? ? Hn Hc]; subst.
    destruct (Z.leb_spec m (snd item)); [| lia]. rewrite IH; auto.
Qed.

(** With the default threshold, the reply pass puts on every pair one unit
    per recorded reply pair. *)
Lemma weight0_reply_graph_default (set_iter : list string -> list string)
    (posts comments : list row) (m : Z) (u v : string) :
  (m <= 1)%Z ->
  weight0 (reply_graph set_iter posts comments m) u v
  = pair_count u v (author_comment_pairs (merge_left comments posts)).
Proof.
  intros Hm. rewrite weight0_reply_graph.
  rewrite kept_all; [apply pair_total_Counter | assumption | apply Counter_pos].
Qed.

(* ================================================================== *)
(** * [unique], [combinations2] and [groupby] *)

Lemma mem_In (x : string) (l : list string) : mem x l = true <-> In x l.
Proof.
  unfold mem. rewrite existsb_exists. split.
  - intros [y [Hin Heq]]. apply String.eqb_eq in Heq. congruence.
  - intros Hin. exists x. split; [assumption | apply String.eqb_refl].
Qed.

Lemma mem_false (x : string) (l : list string) : mem x l = false <-> ~ In x l.
Proof.
  rewrite <- mem_In. destruct (mem x l); split; congruence.
Qed.

Lemma mem_cons (x y : string) (l : list string) :
  mem x (y :: l) = (x =? y) || mem x l.
Proof. reflexivity. Qed.

Lemma In_unique (x : string) (l : list string) : In x (unique l) <-> In x l.
Proof.
  induction l as [| y l IH]; simpl; [tauto |].
  rewrite filter_In, IH, negb_true_iff, String.eqb_neq.
  destruct (string_dec y x); intuition congruence.
Qed.

Lemma NoDup_unique (l : list string) : NoDup (unique l).
Proof.
  induction l as [| y l IH]; simpl; constructor.
  - rewrite filter_In, negb_true_iff, String.eqb_neq. tauto.
  - apply NoDup_filter. assumption.
Qed.

Lemma combinations2_In {A : Type} (a b : A) (l : list A) :
  In (a, b) (combinations2 l) -> In a l /\ In b l.
Proof.
  induction l as [| x l IH]; simpl; [tauto |].
  rewrite in_app_iff, in_map_iff. intros [[y [Heq Hin]] | Hin].
  - inversion Heq; subst. auto.
  - destruct (IH Hin). auto.
Qed.

(** The pairs drawn from a duplicate-free list have distinct components. *)
Lemma combinations2_distinct {A : Type} (a b : A) (l : list A) :
  NoDup l -> In (a, b) (combinations2 l) -> a <> b.
Proof.
  induction l as [| x l IH]; simpl; [tauto |].
  intros Hnd. inversion Hnd as [| ? ? Hx Hl]; subst.
  rewrite in_app_iff, in_map_iff. intros [[y [Heq Hin]] | Hin].
  - inversion Heq; subst. intros ->. contradiction.
  - apply IH; assumption.
Qed.

Lemma combinations2_length_double {A : Type} (l : list A) :
  (2 * List.length (combinations2 l)
   = List.length l * (List.length l - 1))%nat.
Proof.
  induction l as [| x l IH]; simpl; [reflexivity |].
  rewrite length_app, length_map. rewrite Nat.sub_0_r.
  destruct l as [| y l']; simpl in *; [reflexivity |].
  rewrite Nat.sub_0_r in IH. nia.
Qed.

(** [k] elements give [k * (k - 1) / 2] pairs. *)
Lemma combinations2_length {A : Type} (l : list A) :
  List.length (combinations2 l)
  = (List.length l * (List.length l - 1) / 2)%nat.
Proof.
  rewrite <- combinations2_length_double.
  rewrite Nat.mul_comm, Nat.div_mul by discriminate. reflexivity.
Qed.

Lemma filter_distinct_combinations2 (l : list string) :
  NoDup l -> filter distinct_pair (combinations2 l) = combinations2 l.
Proof.
  intros Hnd. apply forallb_filter_id. apply forallb_forall.
  intros [a b] Hin. unfold distinct_pair. simpl.
  apply negb_true_iff, String.eqb_neq.
  apply (combinations2_distinct a b l); assumption.
Qed.

Lemma pair_count_map_pair (u v x : string) (l : list string) :
  NoDup l -> ~ In x l ->
  pair_count u v (map (pair x) l)
  = (if String.eqb x u && mem v l then 1
     else if String.eqb x v && mem u l then 1 else 0)%Z.
Proof.
  induction l as [| y l IH]; intros Hnd Hx.
  - simpl. rewrite !andb_false_r. reflexivity.
  - inversion Hnd as [| ? ? Hy Hl]; subst.
    simpl map. rewrite pair_count_cons, IH; [| assumption | simpl in Hx; tauto].
    simpl fst; simpl snd. rewrite !mem_cons.
    apply mem_false in Hy. simpl in Hx.
    unfold same_pair.
    destruct (String.eqb_spec x u), (String.eqb_spec x v),
      (String.eqb_spec y v), (String.eqb_spec y u),
      (String.eqb_spec v y), (String.eqb_spec u y);
      subst; simpl; try congruence; try tauto;
      try rewrite Hy; simpl; try reflexivity;
      destruct (mem v l), (mem u l); simpl; try reflexivity; try congruence.
Qed.

(** Among the pairs drawn from a duplicate-free list, each unordered pair of
    distinct members occurs once and no other pair occurs. *)
Lemma pair_count_combinations2 (u v : string) (l : list string) :
  NoDup l ->
  pair_count u v (combinations2 l)
  = (if negb (String.eqb u v) && mem u l && mem v l then 1 else 0)%Z.
Proof.
  induction l as [| x l IH]; intros Hnd.
  - simpl. rewrite andb_false_r. reflexivity.
  - inversion Hnd as [| ? ? Hx Hl]; subst.
    simpl combinations2. rewrite pair_count_app, IH by assumption.
    rewrite pair_count_map_pair by assumption.
    rewrite !mem_cons. apply mem_false in Hx.
    destruct (String.eqb_spec x u), (String.eqb_spec x v),
      (String.eqb_spec u x), (String.eqb_spec v x), (String.eqb_spec u v);
      subst; simpl; try congruence; try rewrite Hx; simpl;
      try reflexivity;
      destruct (mem v l), (mem u l); simpl; try reflexivity; try congruence.
Qed.

(** The increments of a group: one on each pair of distinct commenters. *)
Lemma pair_count_co_increments (u v : string) (group : list row) :
  pair_count u v (co_increments group)
  = (if negb (String.eqb u v) && mem u (map author group)
        && mem v (map author group)
     then 1 else 0)%Z.
Proof.
  unfold co_increments.
  pose proof (NoDup_unique (map author group)) as Hnd.
  assert (forall x, mem x (unique (map author group))
                    = mem x (map author group)) as Hmem.
  { intros x. destruct (mem x (map author group)) eqn:E.
    - apply mem_In, In_unique, mem_In, E.
    - apply mem_false. rewrite In_unique. apply mem_false, E. }
  destruct (Nat.ltb_spec (List.length (unique (map author group))) 2)
    as [Hlt | Hge].
  - rewrite <- !Hmem.
    destruct (unique (map author group)) as [| x [| y l]];
      simpl in Hlt; try lia.
    + simpl. rewrite andb_false_r. reflexivity.
    + unfold mem. simpl. unfold pair_count. simpl.
      destruct (String.eqb_spec u v), (String.eqb_spec u x),
        (String.eqb_spec v x); subst; simpl; congruence.
  - rewrite filter_distinct_combinations2 by assumption.
    rewrite pair_count_combinations2 by assumption.
    rewrite !Hmem. reflexivity.
Qed.

Lemma insert_key_In (x k : string) (l : list string) :
  In x (insert_key k l) <-> x = k \/ In x l.
Proof.
  induction l as [| y l IH]; simpl.
  - intuition congruence.
  - destruct (String.leb k y); simpl; [intuition congruence |].
    rewrite IH. intuition congruence.
Qed.

Lemma sort_keys_In (x : string) (l : list string) :
  In x (sort_keys l) <-> In x l.
Proof.
  induction l as [| y l IH]; simpl; [tauto |].
  rewrite insert_key_In, IH. intuition congruence.
Qed.

(** Every post id of the comment relation has its group in [groupby]. *)
Lemma groupby_In (comments : list row) (pid : string) :
  In pid (map post_id comments) ->
  In (pid, group_of comments pid) (groupby comments).
Proof.
  intros Hin. unfold groupby. apply in_map_iff. exists pid.
  split; [reflexivity |]. apply sort_keys_In, In_unique, Hin.
Qed.

Lemma group_of_In (comments : list row) (pid a : string) :
  In (pid, a) comments <-> In (pid, a) (group_of comments pid).
Proof.
  unfold group_of. rewrite filter_In. unfold post_id. simpl.
  rewrite String.eqb_refl. tauto.
Qed.

Lemma co_fold_pos (u v : string) (g : string * list row)
    (gs : list (string * list row)) :
  In g gs -> (1 <= pair_count u v (co_increments (snd g)))%Z ->
  (1 <= fold_right
          (fun g acc => (pair_count u v (co_increments (snd g)) + acc)%Z)
          0%Z gs)%Z.
Proof.
  intros Hin Hg.
  assert (forall l : list (string * list row), (0 <= fold_right
            (fun g acc => (pair_count u v (co_increments (snd g)) + acc)%Z)
            0%Z l)%Z) as Hnn.
  { induction l as [| h l IH]; simpl; [lia |].
    pose proof (pair_count_nonneg u v (co_increments (snd h))). lia. }
  induction gs as [| h gs IH]; simpl in *; [tauto |].
  destruct Hin as [-> | Hin].
  - specialize (Hnn gs). lia.
  - specialize (IH Hin).
    pose proof (pair_count_nonneg u v (co_increments (snd h))). lia.
Qed.

(** A pair of distinct commenters of one group gets at least one
    co-comment increment. *)
Lemma co_total_pos (comments : list row) (pid u v : string) :
  In (pid, u) comments -> In (pid, v) comments -> u <> v ->
  (1 <= co_total u v comments)%Z.
Proof.
  intros Hu Hv Hne.
  assert (In (pid, group_of comments pid) (groupby comments)) as Hg.
  { apply groupby_In. apply in_map_iff. exists (pid, u). auto. }
  unfold co_total. apply (co_fold_pos u v _ _ Hg). simpl.
  rewrite pair_count_co_increments.
  assert (mem u (map author (group_of comments pid)) = true) as ->.
  { apply mem_In, in_map_iff. exists (pid, u).
    split; [reflexivity | apply (proj1 (group_of_In comments pid u)), Hu]. }
  assert (mem v (map author (group_of comments pid)) = true) as ->.
  { apply mem_In, in_map_iff. exists (pid, v).
    split; [reflexivity | apply (proj1 (group_of_In comments pid v)), Hv]. }
  apply String.eqb_neq in Hne. rewrite Hne. simpl. lia.
Qed.

(* ================================================================== *)
(** * Nodes and endpoints *)

Lemma has_node_In (G : Graph) (u : string) :
  has_node G u = true <-> In u (g_nodes G).
Proof. apply mem_In. Qed.

Lemma g_nodes_add_node (G : Graph) (u x : string) :
  In x (g_nodes (add_node G u)) <-> x = u \/ In x (g_nodes G).
Proof.
  unfold add_node. destruct (has_node G u) eqn:E; simpl.
  - apply has_node_In in E. intuition congruence.
  - rewrite in_app_iff. simpl. intuition congruence.
Qed.

Lemma g_nodes_add_nodes (l : list string) (G : Graph) (x : string) :
  In x (g_nodes (fold_left add_node l G)) <-> In x l \/ In x (g_nodes G).
Proof.
  revert G. induction l as [| y l IH]; intros G; simpl; [tauto |].
  rewrite IH, g_nodes_add_node. intuition congruence.
Qed.

Lemma g_nodes_add_or_increase (G : Graph) (a b : string) (w : Z)
    (t : edge_type) (x : string) :
  In x (g_nodes G) -> In x (g_nodes (add_or_increase G a b w t)).
Proof.
  unfold add_or_increase, add_edge. destruct (has_edge G a b); simpl; auto.
  intros H. apply g_nodes_add_node. right. apply g_nodes_add_node. auto.
Qed.

Lemma g_nodes_add_reply_edges (m : Z) (c : list (string * string * Z))
    (G : Graph) (x : string) :
  In x (g_nodes G) -> In x (g_nodes (add_reply_edges m c G)).
Proof.
  unfold add_reply_edges. revert G.
  induction c as [| [[a b] w] c IH]; intros G H; simpl; [assumption |].
  apply IH. destruct (m <=? w)%Z; [apply g_nodes_add_or_increase |]; assumption.
Qed.

Lemma g_nodes_co_comment_group (G : Graph) (group : list row) (x : string) :
  In x (g_nodes G) -> In x (g_nodes (co_comment_group G group)).
Proof.
  unfold co_comment_group.
  destruct (List.length (unique (map author group)) <? 2)%nat; [auto |].
  revert G. induction (combinations2 (unique (map author group)))
    as [| [u v] l IH]; intros G H; simpl; [assumption |].
  apply IH. destruct (u =? v); [| apply g_nodes_add_or_increase]; assumption.
Qed.

Lemma g_nodes_add_co_comment_edges (comments : list row) (G : Graph)
    (x : string) :
  In x (g_nodes G) -> In x (g_nodes (add_co_comment_edges comments G)).
Proof.
  unfold add_co_comment_edges. revert G.
  induction (groupby comments) as [| g gs IH]; intros G H; simpl;
    [assumption |].
  apply IH, g_nodes_co_comment_group, H.
Qed.

(** Every author that the iteration over [all_users] visits is a node of
    the returned graph. *)
Lemma authors_are_nodes (set_iter : list string -> list string)
    (posts comments : list row) (m : Z) (x : string) :
  In x (all_users set_iter posts comments) ->
  In x (g_nodes (build_interaction_graph set_iter posts comments m)).
Proof.
  intros H. unfold build_interaction_graph, reply_graph, node_graph.
  apply g_nodes_add_co_comment_edges, g_nodes_add_reply_edges.
  apply g_nodes_add_nodes. auto.
Qed.

Lemma increase_weight_endpoints (es : list edge) (a b : string) (w : Z)
    (e' : edge) :
  In e' (increase_weight es a b w) ->
  exists e, In e es /\ e_u e' = e_u e /\ e_v e' = e_v e /\
            (e_weight e' = e_weight e \/ e_weight e' = (e_weight e + w)%Z).
Proof.
  induction es as [| e es IH]; simpl; [tauto |].
  destruct (joins a b e); simpl.
  - intros [Heq | Hin]; [subst e'; exists e; simpl; auto 6 | exists e'; auto 6].
  - intros [Heq | Hin]; [subst e'; exists e; auto 6 |].
    destruct (IH Hin) as [e0 [H0 H1]]. exists e0. auto.
Qed.

Lemma confined_add_node (P : string -> Prop) (G : Graph) (u : string) :
  P u -> confined P G -> confined P (add_node G u).
Proof.
  intros Pu [Hn He]. split.
  - intros n Hin. apply g_nodes_add_node in Hin.
    destruct Hin as [-> | Hin]; auto.
  - rewrite g_edges_add_node. assumption.
Qed.

Lemma confined_add_or_increase (P : string -> Prop) (G : Graph)
    (a b : string) (w : Z) (t : edge_type) :
  P a -> P b -> confined P G -> confined P (add_or_increase G a b w t).
Proof.
  intros Pa Pb HG. unfold add_or_increase.
  destruct (has_edge G a b).
  - destruct HG as [Hn He]. split; simpl; [assumption |].
    intros e' Hin. apply increase_weight_endpoints in Hin.
    destruct Hin as [e [Hin [-> [-> _]]]]. auto.
  - unfold add_edge.
    pose proof (confined_add_node P _ b Pb (confined_add_node P G a Pa HG))
      as [Hn He].
    split; simpl; [assumption |].
    intros e Hin. apply in_app_iff in Hin. destruct Hin as [Hin | [<- | []]];
      simpl; auto.
Qed.

Lemma confined_add_reply_edges (P : string -> Prop) (m : Z)
    (c : list (string * string * Z)) (G : Graph) :
  (forall item, In item c -> P (fst (fst item)) /\ P (snd (fst item))) ->
  confined P G -> confined P (add_reply_edges m c G).
Proof.
  unfold add_reply_edges. revert G.
  induction c as [| [[a b] w] c IH]; intros G Hc HG; simpl; [assumption |].
  apply IH; [intros item Hin; apply Hc; right; assumption |].
  destruct (Hc (a, b, w)) as [Pa Pb]; [left; reflexivity |]. simpl in *.
  destruct (m <=? w)%Z; [apply confined_add_or_increase |]; assumption.
Qed.

Lemma confined_co_comment_group (P : string -> Prop) (G : Graph)
    (group : list row) :
  (forall a, In a (map author group) -> P a) ->
  confined P G -> confined P (co_comment_group G group).
Proof.
  intros Hg. unfold co_comment_group.
  destruct (List.length (unique (map author group)) <? 2)%nat; [auto |].
  assert (forall u v, In (u, v) (combinations2 (unique (map author group)))
                      -> P u /\ P v) as Hl.
  { intros u v Hin. apply combinations2_In in Hin.
    rewrite !In_unique in Hin. destruct Hin. auto. }
  revert G. induction (combinations2 (unique (map author group)))
    as [| [u v] l IH]; intros G HG; simpl; [assumption |].
  apply IH; [intros; apply Hl; right; assumption |].
  destruct (Hl u v) as [Pu Pv]; [left; reflexivity |].
  destruct (u =? v); [| apply confined_add_or_increase]; assumption.
Qed.

Lemma confined_add_co_comment_edges (P : string -> Prop)
    (comments : list row) (G : Graph) :
  (forall a, In a (map author comments) -> P a) ->
  confined P G -> confined P (add_co_comment_edges comments G).
Proof.
  intros Hc. unfold add_co_comment_edges.
  assert (forall g, In g (groupby comments) ->
            forall a, In a (map author (snd g)) -> P a) as Hg.
  { intros g Hin a Ha. unfold groupby in Hin. apply in_map_iff in Hin.
    destruct Hin as [pid [<- _]]. simpl in Ha. apply Hc.
    apply in_map_iff in Ha. destruct Ha as [r [<- Hr]].
    apply in_map. unfold group_of in Hr. apply filter_In in Hr. tauto. }
  revert G. induction (groupby comments) as [| g gs IH]; intros G HG; simpl;
    [assumption |].
  apply IH; [intros g' Hin a Ha; apply (Hg g'); [right |]; assumption |].
  apply confined_co_comment_group; [apply (Hg g); left; reflexivity |].
  assumption.
Qed.

(* ================================================================== *)
(** * The reply pairs *)

Lemma author_comment_pairs_flat (posts comments : list row) :
  author_comment_pairs (merge_left comments posts)
  = flat_map (reply_pairs_of_comment posts) comments.
Proof.
  unfold reply_pairs_of_comment, author_comment_pairs, merge_left.
  induction comments as [| c cs IH]; simpl; [reflexivity |].
  rewrite flat_map_app, IH, app_nil_r. reflexivity.
Qed.

Lemma reply_pairs_of_comment_merge (posts : list row) (c : row) :
  reply_pairs_of_comment posts c = flat_map reply_pair (merge_one posts c).
Proof.
  unfold reply_pairs_of_comment, author_comment_pairs, merge_left. simpl.
  rewrite app_nil_r. reflexivity.
Qed.

(** Shape of every recorded reply pair: the commenter of some comment row,
    neither empty nor [deleted] nor the post author, with the author of a
    matching post row, or [deleted] when no post row matches. *)
Lemma reply_pair_shape (posts : list row) (c : row) (a b : string) :
  In (a, b) (reply_pairs_of_comment posts c) ->
  b = author c /\ b <> "" /\ b <> deleted /\ a <> b /\
  ((exists p, In p posts /\ post_id p = post_id c /\ author p = a) \/
   (a = deleted /\ matching_posts posts (post_id c) = [])).
Proof.
  rewrite reply_pairs_of_comment_merge. unfold merge_one.
  intros Hin. apply in_flat_map in Hin. destruct Hin as [r [Hr Hin]].
  assert (forall pa, In (a, b) (reply_pair (post_id c, author c, pa)) ->
            b = author c /\ b <> "" /\ b <> deleted /\ a <> b /\
            a = match pa with Some x => x | None => deleted end) as Hshape.
  { intros pa. unfold reply_pair.
    destruct (String.eqb_spec (author c) ""); simpl; [tauto |].
    destruct (String.eqb_spec (author c) deleted); simpl; [tauto |].
    destruct (String.eqb_spec (author c)
                (match pa with Some x => x | None => deleted end));
      simpl; [tauto |].
    intros [Heq | []]. inversion Heq; subst. repeat split; congruence. }
  destruct (matching_posts posts (post_id c)) as [| p0 ms] eqn:M.
  - destruct Hr as [<- | []]. apply Hshape in Hin.
    destruct Hin as (H1 & H2 & H3 & H4 & H5). repeat split; auto.
  - apply in_map_iff in Hr. destruct Hr as [p [<- Hp]].
    apply Hshape in Hin. destruct Hin as (H1 & H2 & H3 & H4 & H5).
    repeat split; auto. left. exists p.
    rewrite <- M in Hp. unfold matching_posts in Hp. apply filter_In in Hp.
    destruct Hp as [Hp Hid]. apply String.eqb_eq in Hid. auto.
Qed.

Lemma pair_total_nonneg (u v : string) (c : list (string * string * Z)) :
  Forall (fun item => (1 <= snd item)%Z) c -> (0 <= pair_total u v c)%Z.
Proof.
  induction c as [| [[a b] w] c IH]; simpl; intros H; [lia |].
  inversion H as [| ? ? Hw Hc]; subst. simpl in Hw. specialize (IH Hc).
  destruct (same_pair a b u v); lia.
Qed.

Lemma kept_pos (m : Z) (c : list (string * string * Z)) :
  Forall (fun item => (1 <= snd item)%Z) c ->
  Forall (fun item => (1 <= snd item)%Z) (kept m c).
Proof.
  unfold kept. intros H. apply Forall_forall. intros item Hin.
  apply filter_In in Hin. rewrite Forall_forall in H. apply H. tauto.
Qed.

Lemma weight0_reply_graph_nonneg (set_iter : list string -> list string)
    (posts comments : list row) (m : Z) (u v : string) :
  (0 <= weight0 (reply_graph set_iter posts comments m) u v)%Z.
Proof.
  rewrite weight0_reply_graph. apply pair_total_nonneg, kept_pos, Counter_pos.
Qed.

(* ================================================================== *)
(** * The threshold *)

Lemma weights_at_least_add_or_increase (m : Z) (G : Graph) (a b : string)
    (w : Z) (t : edge_type) :
  (m <= w)%Z -> (0 <= w)%Z ->
  weights_at_least m G -> weights_at_least m (add_or_increase G a b w t).
Proof.
  unfold weights_at_least, add_or_increase. intros Hm Hw HG.
  rewrite Forall_forall in HG.
  destruct (has_edge G a b); simpl; apply Forall_forall; intros e Hin.
  - apply increase_weight_endpoints in Hin.
    destruct Hin as [e0 [Hin [_ [_ [-> | ->]]]]]; specialize (HG e0 Hin); lia.
  - rewrite !g_edges_add_node in Hin. apply in_app_iff in Hin.
    destruct Hin as [Hin | [<- | []]]; simpl; auto.
Qed.

Lemma total_weight_co_comment_steps (l : list (string * string)) (G : Graph) :
  total_weight (fold_left co_comment_step l G)
  = (total_weight G + Z.of_nat (List.length (filter distinct_pair l)))%Z.
Proof.
  revert G. induction l as [| [a b] l IH]; intros G; simpl; [lia |].
  rewrite IH. unfold distinct_pair at 2. simpl. destruct (a =? b); simpl.
  - reflexivity.
  - rewrite total_weight_add_or_increase. lia.
Qed.


Lemma weights_at_least_reply (k m : Z) (c : list (string * string * Z))
    (G : Graph) :
  (k <= Z.max 1 m)%Z ->
  Forall (fun item => (1 <= snd item)%Z) c ->
  weights_at_least k G -> weights_at_least k (add_reply_edges m c G).
Proof.
  intros Hk. unfold add_reply_edges. revert G.
  induction c as [| [[a b] w] c IH]; intros G Hc HG; simpl; [assumption |].
  inversion Hc as [| ? ? Hw Hc']; subst. simpl in Hw.
  apply IH; [assumption |].
  destruct (Z.leb_spec m w); [| assumption].
  apply weights_at_least_add_or_increase; [lia | lia | assumption].
Qed.

Lemma weights_at_least_co_group (k : Z) (G : Graph) (group : list row) :
  (k <= 1)%Z ->
  weights_at_least k G -> weights_at_least k (co_comment_group G group).
Proof.
  intros Hk. unfold co_comment_group.
  destruct (List.length (unique (map author group)) <? 2)%nat; [auto |].
  revert G. induction (combinations2 (unique (map author group)))
    as [| [u v] l IH]; intros G HG; simpl; [assumption |].
  apply IH. destruct (u =? v); [assumption |].
  apply weights_at_least_add_or_increase; [lia | lia | assumption].
Qed.

Lemma weights_at_least_co (k : Z) (comments : list row) (G : Graph) :
  (k <= 1)%Z ->
  weights_at_least k G -> weights_at_least k (add_co_comment_edges comments G).
Proof.
  intros Hk. unfold add_co_comment_edges. revert G.
  induction (groupby comments) as [| g gs IH]; intros G HG; simpl;
    [assumption |].
  apply IH, weights_at_least_co_group; assumption.
Qed.

Lemma weights_at_least_node_graph (k : Z)
    (set_iter : list string -> list string) (posts comments : list row) :
  weights_at_least k (node_graph set_iter posts comments).
Proof.
  unfold weights_at_least, node_graph. rewrite g_edges_add_nodes. constructor.
Qed.

Lemma confined_add_nodes (P : string -> Prop) (l : list string) (G : Graph) :
  (forall x, In x l -> P x) -> confined P G ->
  confined P (fold_left add_node l G).
Proof.
  revert G. induction l as [| x l IH]; intros G Hl HG; simpl; [assumption |].
  apply IH; [intros; apply Hl; right; assumption |].
  apply confined_add_node; [apply Hl; left; reflexivity | assumption].
Qed.

Lemma matching_posts_nil (posts : list row) (pid : string) :
  matching_posts posts pid = [] <-> ~ In pid (map post_id posts).
Proof.
  unfold matching_posts. induction posts as [| p posts IH]; simpl; [tauto |].
  destruct (String.eqb_spec (post_id p) pid); split; intros H.
  - discriminate.
  - exfalso. apply H. left. assumption.
  - apply IH in H. tauto.
  - apply IH. tauto.
Qed.

Lemma reply_pair_unmatched (pid c : string) :
  c <> "" -> c <> deleted -> reply_pair (pid, c, None) = [(deleted, c)].
Proof.
  intros H1 H2. unfold reply_pair.
  apply String.eqb_neq in H1. apply String.eqb_neq in H2.
  rewrite H1, H2. reflexivity.
Qed.

Lemma reply_pairs_unmatched (posts : list row) (pid c : string) :
  ~ In pid (map post_id posts) -> c <> "" -> c <> deleted ->
  reply_pairs_of_comment posts (pid, c) = [(deleted, c)].
Proof.
  intros Hpid H1 H2. rewrite reply_pairs_of_comment_merge. unfold merge_one.
  apply matching_posts_nil in Hpid. simpl post_id. rewrite Hpid.
  cbn [flat_map author snd]. rewrite reply_pair_unmatched by assumption.
  reflexivity.
Qed.

Lemma reply_pair_rows_matched (pid c : string) (ms : list row) :
  c <> "" -> c <> deleted ->
  (forall p, In p ms -> author p <> c) ->
  flat_map reply_pair (map (fun p => (pid, c, Some (author p))) ms)
  = map (fun p => (author p, c)) ms.
Proof.
  intros H1 H2. apply String.eqb_neq in H1. apply String.eqb_neq in H2.
  induction ms as [| p ms IH]; intros Hall; [reflexivity |].
  cbn [map flat_map]. rewrite IH by (intros; apply Hall; right; assumption).
  unfold reply_pair. rewrite H1, H2. cbn [orb].
  assert (c <> author p) as H3
      by (intros E; apply (Hall p); [left; reflexivity | congruence]).
  apply String.eqb_neq in H3. rewrite H3. reflexivity.
Qed.

Lemma reply_pairs_matched (posts : list row) (pid c : string) :
  c <> "" -> c <> deleted ->
  matching_posts posts pid <> [] ->
  (forall p, In p (matching_posts posts pid) -> author p <> c) ->
  reply_pairs_of_comment posts (pid, c)
  = map (fun p => (author p, c)) (matching_posts posts pid).
Proof.
  intros H1 H2 Hne Hall. rewrite reply_pairs_of_comment_merge.
  unfold merge_one. cbn [post_id author fst snd].
  rewrite <- (reply_pair_rows_matched pid c) by assumption.
  destruct (matching_posts posts pid) as [| p ms]; [congruence |].
  reflexivity.
Qed.

Lemma reply_pairs_skipped (posts : list row) (pid c : string) :
  c = "" \/ c = deleted -> reply_pairs_of_comment posts (pid, c) = [].
Proof.
  intros Hc. rewrite reply_pairs_of_comment_merge.
  assert (forall pa, reply_pair (pid, c, pa) = []) as Hskip.
  { intros pa. unfold reply_pair. destruct Hc as [-> | ->]; reflexivity. }
  unfold merge_one. cbn [post_id author fst snd].
  destruct (matching_posts posts pid) as [| p ms].
  - cbn [flat_map]. rewrite Hskip. reflexivity.
  - induction (p :: ms) as [| q l IH]; [reflexivity |].
    cbn [map flat_map]. rewrite Hskip, IH. reflexivity.
Qed.

Lemma In_author_comment_pairs (posts comments : list row) (a b : string) :
  In (a, b) (author_comment_pairs (merge_left comments posts)) ->
  exists c, In c comments /\ In (a, b) (reply_pairs_of_comment posts c).
Proof.
  rewrite author_comment_pairs_flat. intros H. apply in_flat_map in H.
  exact H.
Qed.

Lemma pair_count_same_author (a c : string) (ms : list row) :
  (forall p, In p ms -> author p = a) ->
  pair_count a c (map (fun p => (author p, c)) ms)
  = Z.of_nat (List.length ms).
Proof.
  induction ms as [| p ms IH]; intros Hall; [reflexivity |].
  simpl map. rewrite pair_count_cons, IH
    by (intros; apply Hall; right; assumption).
  simpl fst; simpl snd. rewrite (Hall p) by (left; reflexivity).
  rewrite same_pair_refl. simpl List.length. lia.
Qed.

(** Two distinct accounts that commented on the same post id are joined,
    whatever the threshold. *)
Lemma co_commenters_joined (set_iter : list string -> list string)
    (posts comments : list row) (m : Z) (pid u v : string) :
  In (pid, u) comments -> In (pid, v) comments -> u <> v ->
  has_edge (build_interaction_graph set_iter posts comments m) u v = true.
Proof.
  intros Hu Hv Hne. apply weight0_pos_has_edge. rewrite weight0_build.
  pose proof (weight0_reply_graph_nonneg set_iter posts comments m u v).
  pose proof (co_total_pos comments pid u v Hu Hv Hne). lia.
Qed.

(** With a threshold of at most 1 every recorded reply pair is an edge. *)
Lemma reply_pair_joined (set_iter : list string -> list string)
    (posts comments : list row) (m : Z) (a b : string) :
  (m <= 1)%Z ->
  In (a, b) (author_comment_pairs (merge_left comments posts)) ->
  has_edge (build_interaction_graph set_iter posts comments m) a b = true.
Proof.
  intros Hm Hin. apply weight0_pos_has_edge.
  rewrite weight0_build, weight0_reply_graph_default by assumption.
  pose proof (co_total_nonneg a b comments).
  pose proof (pair_count_In a b a b _ Hin (same_pair_refl a b)). lia.
Qed.

Lemma reply_pair_of_matching_post (posts : list row) (pid c : string)
    (p : row) :
  In p posts -> post_id p = pid ->
  c <> "" -> c <> deleted -> c <> author p ->
  In (author p, c) (reply_pairs_of_comment posts (pid, c)).
Proof.
  intros Hp Hid H1 H2 H3. rewrite reply_pairs_of_comment_merge.
  apply in_flat_map. exists (pid, c, Some (author p)). split.
  - unfold merge_one. cbn [post_id author fst snd].
    assert (In p (matching_posts posts pid)) as Hm.
    { unfold matching_posts. apply filter_In. split; [assumption |].
      apply String.eqb_eq, Hid. }
    destruct (matching_posts posts pid) as [| q ms]; [destruct Hm |].
    apply (in_map (fun p0 : row => (pid, c, Some (snd p0)))) in Hm.
    exact Hm.
  - unfold reply_pair. apply String.eqb_neq in H1. apply String.eqb_neq in H2.
    apply String.eqb_neq in H3. rewrite H1, H2, H3. left. reflexivity.
Qed.

(* ================================================================== *)
(** * Properties of [build_interaction_graph] *)

(** The run of section 8 of the specification: alice posts p1; bob, carol and
    alice comment on it. *)
Example alice_bob_carol :
  let G := build_interaction_graph first_seen
             [("p1", "alice")]
             [("p1", "bob"); ("p1", "carol"); ("p1", "alice")] 1 in
  g_nodes G = ["alice"; "bob"; "carol"] /\
  get_weight G "alice" "bob" = Some 2%Z /\
  get_weight G "carol" "alice" = Some 2%Z /\
  get_weight G "bob" "carol" = Some 1%Z /\
  total_weight G = 5%Z.
Proof. cbv zeta. repeat split. Qed.

(** C1, as stated, fails.  With the post relation [(p1, "[deleted]")] and
    the comments [(p1, "bob")], [(p1, "[deleted]")], the returned graph has
    the node ["[deleted]"], the reply pair [("[deleted]", "bob")] is recorded,
    the co-comment pass increments [("bob", "[deleted]")], and the edge between
    ["[deleted]"] and ["bob"] ends with weight 2. *)
Lemma deleted_becomes_node_and_endpoint :
  let posts := [("p1", deleted)] in
  let comments := [("p1", "bob"); ("p1", deleted)] in
  let G := build_interaction_graph first_seen posts comments 1 in
  has_node G deleted = true /\
  In (deleted, "bob") (author_comment_pairs (merge_left comments posts)) /\
  In ("bob", deleted) (co_increments (group_of comments "p1")) /\
  g_edges G = [mkEdge deleted "bob" 2 author_comment].
Proof.
  cbv zeta. repeat split; vm_compute; auto.
Qed.

(** C1 (amended).  The only place where the builder filters ["[deleted]"] is
    the commenter of the reply pass: no reply pair is recorded whose
    commenter is ["[deleted]"].  Otherwise ["[deleted]"] is an account like
    any other.  It is a node of the returned graph whenever it is the author
    of a post row or of a comment row (the iteration over [all_users]
    visiting every member).  It is the post author of a reply pair for every
    comment, by an author neither empty nor ["[deleted]"], on a post row
    whose author is ["[deleted]"] or on a post id that matches no post row;
    with a threshold of at most 1 the two are then joined by an edge.  It is
    joined by a co-comment edge to every other commenter of a post id on
    which it commented.  The returned graph has no ["[deleted]"] node and no
    edge with a ["[deleted]"] endpoint when ["[deleted]"] is the author of no
    post row and of no comment row and every comment's post id is the id of
    some post row (the iteration visiting members only). *)
Theorem deleted_filtered_only_as_reply_commenter
    (set_iter : list string -> list string)
    (posts comments : list row) (m : Z) :
  let G := build_interaction_graph set_iter posts comments m in
  let pairs := author_comment_pairs (merge_left comments posts) in
  (forall a b, In (a, b) pairs -> b <> deleted) /\
  ((forall l x, In x l -> In x (set_iter l)) ->
   In deleted (map author posts) \/ In deleted (map author comments) ->
   has_node G deleted = true) /\
  (forall pid c,
      In (pid, c) comments -> c <> "" -> c <> deleted ->
      In (pid, deleted) posts \/ ~ In pid (map post_id posts) ->
      In (deleted, c) pairs /\
      ((m <= 1)%Z -> has_edge G deleted c = true)) /\
  (forall pid c,
      In (pid, deleted) comments -> In (pid, c) comments -> c <> deleted ->
      (1 <= co_total deleted c comments)%Z /\
      has_edge G deleted c = true) /\
  ((forall l x, In x (set_iter l) -> In x l) ->
   ~ In deleted (map author posts) ->
   ~ In deleted (map author comments) ->
   (forall c, In c comments -> In (post_id c) (map post_id posts)) ->
   has_node G deleted = false /\
   forall e, In e (g_edges G) -> e_u e <> deleted /\ e_v e <> deleted).
Proof.
  cbv zeta. split; [| split; [| split; [| split]]].
  - intros a b Hin. apply In_author_comment_pairs in Hin.
    destruct Hin as [c [_ Hin]]. apply reply_pair_shape in Hin. tauto.
  - intros Hiter Hd. apply has_node_In, authors_are_nodes. unfold all_users.
    apply Hiter, in_app_iff. rewrite !In_unique. exact Hd.
  - intros pid c Hc H1 H2 Hpost.
    assert (In (deleted, c)
              (author_comment_pairs (merge_left comments posts))) as Hpair.
    { rewrite author_comment_pairs_flat. apply in_flat_map.
      exists (pid, c). split; [exact Hc |].
      destruct Hpost as [Hp | Hp].
      - apply (reply_pair_of_matching_post posts pid c (pid, deleted));
          auto.
      - rewrite reply_pairs_unmatched by assumption. left. reflexivity. }
    split; [exact Hpair |].
    intros Hm. apply reply_pair_joined; assumption.
  - intros pid c Hd Hc Hne. split.
    + apply (co_total_pos comments pid); auto.
    + apply (co_commenters_joined set_iter posts comments m pid); auto.
  - intros Hiter Hp Hc Hmatch.
    assert (confined (fun x => x <> deleted)
              (build_interaction_graph set_iter posts comments m))
      as [Hn He].
    { unfold build_interaction_graph, reply_graph, node_graph.
      apply confined_add_co_comment_edges; [intros a Ha E; congruence |].
      apply confined_add_reply_edges.
      - intros [[a b] w] Hin. apply Counter_keys in Hin. simpl in *.
        apply In_author_comment_pairs in Hin. destruct Hin as [c [Hc' Hin]].
        apply reply_pair_shape in Hin.
        destruct Hin as (_ & _ & Hb & _ & [[p [Hp1 [Hp2 Hp3]]] | [_ Hnil]]).
        + split; [| assumption]. intros E. apply Hp. rewrite <- E, <- Hp3.
          apply in_map. assumption.
        + exfalso. apply matching_posts_nil in Hnil. apply Hnil, Hmatch, Hc'.
      - apply confined_add_nodes; [| split; simpl; tauto].
        intros x Hx E. unfold all_users in Hx. apply Hiter in Hx.
        apply in_app_iff in Hx. rewrite !In_unique in Hx. subst x. tauto. }
    split; [| exact He].
    destruct (has_node _ deleted) eqn:E; [| reflexivity].
    apply has_node_In in E. apply Hn in E. congruence.
Qed.

Lemma deleted_filtered_only_as_reply_commenter_witness :
  has_node (build_interaction_graph first_seen
              [("p1", "alice")] [("p1", "bob"); ("p1", "carol")] 1) deleted
  = false /\
  has_node (build_interaction_graph first_seen
              [("p1", deleted)] [("p1", "bob")] 1) deleted
  = true.
Proof.
  split.
  - destruct (deleted_filtered_only_as_reply_commenter first_seen
                [("p1", "alice")] [("p1", "bob"); ("p1", "carol")] 1)
      as (_ & _ & _ & _ & Habsent).
    apply Habsent.
    + intros l x H. apply (proj1 (In_unique x l) H).
    + simpl. intuition discriminate.
    + simpl. intuition discriminate.
    + simpl. intros c [<- | [<- | []]]; simpl; auto.
  - destruct (deleted_filtered_only_as_reply_commenter first_seen
                [("p1", deleted)] [("p1", "bob")] 1)
      as (_ & Hnode & _).
    apply Hnode.
    + intros l x H. apply (proj2 (In_unique x l) H).
    + left. simpl. auto.
Defined.

(** C4, as stated, fails.  With threshold 2, one post by alice and one comment
    each by bob and carol, both reply counts are 1 and are dropped, yet the
    returned graph keeps the co-comment edge between bob and carol with
    weight 1.  With a comment by bob and one by alice instead, the pair
    alice-bob receives one reply pair and one co-comment increment, two in
    all, and the returned edge weighs 1. *)
Lemma threshold_skips_co_comment_edges :
  get_weight
    (build_interaction_graph first_seen
       [("p1", "alice")] [("p1", "bob"); ("p1", "carol")] 2)
    "bob" "carol" = Some 1%Z /\
  (pair_count "alice" "bob"
     (author_comment_pairs
        (merge_left [("p1", "bob"); ("p1", "alice")] [("p1", "alice")]))
   + co_total "alice" "bob" [("p1", "bob"); ("p1", "alice")] = 2)%Z /\
  get_weight
    (build_interaction_graph first_seen
       [("p1", "alice")] [("p1", "bob"); ("p1", "alice")] 2)
    "alice" "bob" = Some 1%Z.
Proof. repeat split; vm_compute; reflexivity. Qed.

(** C4 (amended).  The threshold is applied in the reply pass only, to each
    count of [counter_ac] before it is added: every edge of the graph after
    the reply pass weighs at least [min_edge_weight].  The co-comment pass
    then adds its increments without any threshold: the final weight of a
    pair is its weight after the reply pass plus its co-comment increments,
    and every edge of the returned graph weighs at least 1. *)
Theorem threshold_applied_to_reply_counts
    (set_iter : list string -> list string)
    (posts comments : list row) (m : Z) :
  weights_at_least m (reply_graph set_iter posts comments m) /\
  (forall u v,
      weight0 (build_interaction_graph set_iter posts comments m) u v
      = (weight0 (reply_graph set_iter posts comments m) u v
         + co_total u v comments)%Z) /\
  (forall u v,
      weight0 (reply_graph set_iter posts comments m) u v
      = pair_total u v
          (kept m (Counter (author_comment_pairs (merge_left comments posts)))))
  /\ weights_at_least 1 (build_interaction_graph set_iter posts comments m).
Proof.
  repeat split.
  - unfold reply_graph. apply weights_at_least_reply;
      [lia | apply Counter_pos | apply weights_at_least_node_graph].
  - intros u v. apply weight0_build.
  - intros u v. apply weight0_reply_graph.
  - unfold build_interaction_graph, reply_graph.
    apply weights_at_least_co; [lia |].
    apply weights_at_least_reply;
      [lia | apply Counter_pos | apply weights_at_least_node_graph].
Qed.

(** C5, as stated, fails.  The comment [(p2, "bob")] matches no post row, and
    the reply pass records for it the pair [("[deleted]", "bob")]: the
    returned graph has a reply edge between ["[deleted]"] and ["bob"]. *)
Lemma unmatched_comment_adds_reply_edge :
  let posts := [("p1", "alice")] in
  let comments := [("p2", "bob"); ("p2", "carol")] in
  matching_posts posts "p2" = [] /\
  reply_pairs_of_comment posts ("p2", "bob") = [(deleted, "bob")] /\
  In (mkEdge deleted "bob" 1 author_comment)
     (g_edges (build_interaction_graph first_seen posts comments 1)).
Proof. cbv zeta. repeat split; vm_compute; auto. Qed.

(** C5 (amended).  A comment whose post id matches no post row has its missing
    post author replaced by ["[deleted]"]: unless its own author is empty or
    ["[deleted]"], it adds the reply pair [("[deleted]", author)], and with a
    threshold of at most 1 the returned graph has an edge between
    ["[deleted]"] and its author; an empty or ["[deleted]"] author adds no
    reply pair.  The comment still takes part in the co-comment pass: its
    author is joined to every other commenter of its post-id group. *)
Theorem unmatched_comment_replies_to_deleted
    (set_iter : list string -> list string)
    (posts comments : list row) (m : Z) (pid c : string) :
  In (pid, c) comments ->
  ~ In pid (map post_id posts) ->
  (c <> "" -> c <> deleted ->
   reply_pairs_of_comment posts (pid, c) = [(deleted, c)] /\
   ((m <= 1)%Z ->
    has_edge (build_interaction_graph set_iter posts comments m) deleted c
    = true)) /\
  (c = "" \/ c = deleted -> reply_pairs_of_comment posts (pid, c) = []) /\
  (forall c', In (pid, c') comments -> c' <> c ->
     (1 <= co_total c c' comments)%Z /\
     has_edge (build_interaction_graph set_iter posts comments m) c c' = true).
Proof.
  intros Hin Hpid. repeat split.
  - apply reply_pairs_unmatched; assumption.
  - intros Hm. apply weight0_pos_has_edge.
    rewrite weight0_build, weight0_reply_graph_default by assumption.
    pose proof (co_total_nonneg deleted c comments).
    assert (1 <= pair_count deleted c
                   (author_comment_pairs (merge_left comments posts)))%Z;
      [| lia].
    apply (pair_count_In deleted c deleted c); [| apply same_pair_refl].
    rewrite author_comment_pairs_flat. apply in_flat_map.
    exists (pid, c). split; [assumption |].
    rewrite reply_pairs_unmatched by assumption. left. reflexivity.
  - apply reply_pairs_skipped.
  - apply (co_total_pos comments pid); auto.
  - apply weight0_pos_has_edge. rewrite weight0_build.
    pose proof (weight0_reply_graph_nonneg set_iter posts comments m c c').
    assert (1 <= co_total c c' comments)%Z; [| lia].
    apply (co_total_pos comments pid); auto.
Qed.

Lemma unmatched_comment_replies_to_deleted_witness :
  has_edge
    (build_interaction_graph first_seen
       [("p1", "alice")] [("p2", "bob"); ("p2", "carol")] 1)
    deleted "bob" = true.
Proof.
  apply (unmatched_comment_replies_to_deleted first_seen
           [("p1", "alice")] [("p2", "bob"); ("p2", "carol")] 1 "p2" "bob").
  - simpl. auto.
  - simpl. intuition discriminate.
  - discriminate.
  - discriminate.
  - lia.
Defined.


(** C9, as stated, fails.  The post relation has two rows with the id [p1],
    both by alice.  The comment [(p1, "[deleted]")] has an author different
    from alice, and it adds no reply pair: the returned graph has no edge.
    With threshold 3, the comment [(p1, "bob")] adds two reply pairs, and
    the count 2 is dropped: the returned graph has no edge either. *)
Lemma deleted_commenter_adds_no_reply :
  let posts := [("p1", "alice"); ("p1", "alice")] in
  List.length (matching_posts posts "p1") = 2%nat /\
  reply_pairs_of_comment posts ("p1", deleted) = [] /\
  g_edges (build_interaction_graph first_seen posts [("p1", deleted)] 1) = []
  /\
  reply_pairs_of_comment posts ("p1", "bob")
  = [("alice", "bob"); ("alice", "bob")] /\
  g_edges (build_interaction_graph first_seen posts [("p1", "bob")] 3) = [].
Proof. cbv zeta. repeat split. Qed.

(** C9 (amended).  If the post relation has [d >= 1] rows with the post id of
    a comment, and the comment's author is neither empty nor ["[deleted]"]
    and differs from the author of each of these rows, the comment adds [d]
    reply pairs, one per matching post row, pairing that row's author with the
    commenter.  With a threshold of at most 1, the comment raises the weight
    of every pair after the reply pass by the number of its reply pairs on
    that pair; when the [d] rows have one author, that is [d] on the pair of
    the post author and the commenter. *)
Theorem duplicate_post_rows_multiply_replies
    (posts : list row) (pid c : string) :
  c <> "" -> c <> deleted ->
  matching_posts posts pid <> [] ->
  (forall p, In p (matching_posts posts pid) -> author p <> c) ->
  reply_pairs_of_comment posts (pid, c)
  = map (fun p => (author p, c)) (matching_posts posts pid) /\
  List.length (reply_pairs_of_comment posts (pid, c))
  = List.length (matching_posts posts pid) /\
  (forall set_iter cs1 cs2 m u v,
      (m <= 1)%Z ->
      weight0 (reply_graph set_iter posts (cs1 ++ (pid, c) :: cs2) m) u v
      = (weight0 (reply_graph set_iter posts (cs1 ++ cs2) m) u v
         + pair_count u v (reply_pairs_of_comment posts (pid, c)))%Z) /\
  (forall a,
      (forall p, In p (matching_posts posts pid) -> author p = a) ->
      pair_count a c (reply_pairs_of_comment posts (pid, c))
      = Z.of_nat (List.length (matching_posts posts pid))).
Proof.
  intros H1 H2 Hne Hall.
  pose proof (reply_pairs_matched posts pid c H1 H2 Hne Hall) as Hpairs.
  repeat split.
  - exact Hpairs.
  - rewrite Hpairs. apply length_map.
  - intros set_iter cs1 cs2 m u v Hm.
    rewrite !weight0_reply_graph_default by assumption.
    rewrite !author_comment_pairs_flat, !flat_map_app. cbn [flat_map].
    rewrite !pair_count_app. lia.
  - intros a Ha. rewrite Hpairs. apply pair_count_same_author, Ha.
Qed.

Lemma duplicate_post_rows_multiply_replies_witness :
  reply_pairs_of_comment [("p1", "alice"); ("p2", "dave"); ("p1", "alice")]
                         ("p1", "bob")
  = [("alice", "bob"); ("alice", "bob")].
Proof.
  apply (duplicate_post_rows_multiply_replies
           [("p1", "alice"); ("p2", "dave"); ("p1", "alice")] "p1" "bob").
  - discriminate.
  - discriminate.
  - vm_compute. discriminate.
  - vm_compute. intros p [<- | [<- | []]]; discriminate.
Defined.

(** C10.  A comment whose author is the empty string adds no reply pair, and
    no reply pair has the empty string as its commenter; the empty string is
    a node of the returned graph; and in the co-comment pass it is a commenter
    like any other: with every other commenter of its post-id group it forms
    a pair that the group increments once, so that the returned graph has an
    edge between them. *)
Theorem empty_author_is_node_and_co_commenter
    (set_iter : list string -> list string)
    (Hiter : forall l x, In x l -> In x (set_iter l))
    (posts comments : list row) (m : Z) (pid : string) :
  In (pid, "") comments ->
  reply_pairs_of_comment posts (pid, "") = [] /\
  (forall a b,
      In (a, b) (author_comment_pairs (merge_left comments posts)) ->
      b <> "") /\
  has_node (build_interaction_graph set_iter posts comments m) "" = true /\
  (forall c', In (pid, c') comments -> c' <> "" ->
     pair_count "" c' (co_increments (group_of comments pid)) = 1%Z /\
     In (pid, group_of comments pid) (groupby comments) /\
     has_edge (build_interaction_graph set_iter posts comments m) "" c'
     = true).
Proof.
  intros Hin. repeat split.
  - apply reply_pairs_skipped. left. reflexivity.
  - intros a b Hab. apply In_author_comment_pairs in Hab.
    destruct Hab as [c [_ Hab]]. apply reply_pair_shape in Hab. tauto.
  - apply has_node_In, authors_are_nodes. unfold all_users.
    apply Hiter, in_app_iff. right. apply In_unique.
    apply (in_map author _ _ Hin).
  - rewrite pair_count_co_increments.
    assert (mem "" (map author (group_of comments pid)) = true) as ->.
    { apply mem_In. apply (in_map author _ (pid, "")).
      apply (proj1 (group_of_In comments pid "")), Hin. }
    assert (mem c' (map author (group_of comments pid)) = true) as ->.
    { apply mem_In. apply (in_map author _ (pid, c')).
      apply (proj1 (group_of_In comments pid c')). assumption. }
    assert ("" <> c') as Hne by congruence.
    apply String.eqb_neq in Hne. rewrite Hne. reflexivity.
  - apply groupby_In. apply (in_map post_id _ _ Hin).
  - apply weight0_pos_has_edge. rewrite weight0_build.
    pose proof (weight0_reply_graph_nonneg set_iter posts comments m "" c').
    assert (1 <= co_total "" c' comments)%Z; [| lia].
    apply (co_total_pos comments pid); auto.
Qed.

Lemma empty_author_is_node_and_co_commenter_witness :
  has_node
    (build_interaction_graph first_seen
       [("p1", "alice")] [("p1", ""); ("p1", "bob")] 1) "" = true.
Proof.
  apply (empty_author_is_node_and_co_commenter first_seen
           (fun l x H => proj2 (In_unique x l) H)
           [("p1", "alice")] [("p1", ""); ("p1", "bob")] 1 "p1").
  simpl. auto.
Defined.

(* ================================================================== *)
(** * The stable descending sort *)

Ltac q_cases :=
  repeat match goal with
         | |- context [Qcompare ?x ?y] => destruct (Qcompare_spec x y)
         | H : context [Qcompare ?x ?y] |- _ => destruct (Qcompare_spec x y)
         end;
  try congruence; try discriminate; try (exfalso; lra).

Lemma key_gtb_ge (a b : centrality_row) : key_gtb a b = true -> key_ge a b.
Proof.
  unfold key_gtb, key_ge. destruct (key_compare a b); congruence.
Qed.

Lemma key_not_gtb_ge (a b : centrality_row) :
  key_gtb a b = false -> key_ge b a.
Proof. unfold key_gtb, key_ge, key_compare. q_cases. Qed.

Lemma key_ge_trans (a b c : centrality_row) :
  key_ge a b -> key_ge b c -> key_ge a c.
Proof. unfold key_ge, key_compare. q_cases. Qed.

Lemma key_eqb_gtb (r x y : centrality_row) :
  key_eqb r x = true -> key_gtb y x = true -> key_eqb r y = false.
Proof. unfold key_eqb, key_gtb, key_compare. q_cases. Qed.

Lemma insert_desc_perm (x : centrality_row) (l : list centrality_row) :
  Permutation (x :: l) (insert_desc x l).
Proof.
  induction l as [| y l IH]; simpl; [apply Permutation_refl |].
  destruct (key_gtb y x); [| apply Permutation_refl].
  eapply perm_trans; [apply perm_swap |]. apply perm_skip, IH.
Qed.

Lemma sort_values_desc_perm (l : list centrality_row) :
  Permutation l (sort_values_desc l).
Proof.
  induction l as [| x l IH]; simpl; [constructor |].
  eapply perm_trans; [apply perm_skip, IH | apply insert_desc_perm].
Qed.

Lemma insert_desc_sorted (x : centrality_row) (l : list centrality_row) :
  StronglySorted key_ge l -> StronglySorted key_ge (insert_desc x l).
Proof.
  induction l as [| y l IH]; simpl; intros Hs.
  - constructor; constructor.
  - inversion Hs as [| ? ? Hl Hy]; subst.
    destruct (key_gtb y x) eqn:E.
    + constructor; [apply IH, Hl |].
      apply (Permutation_Forall (insert_desc_perm x l)).
      constructor; [apply key_gtb_ge, E | assumption].
    + apply key_not_gtb_ge in E. constructor; [assumption |].
      constructor; [assumption |].
      eapply Forall_impl; [| exact Hy].
      intros z Hz. apply (key_ge_trans x y z); assumption.
Qed.

Lemma sort_values_desc_sorted (l : list centrality_row) :
  StronglySorted key_ge (sort_values_desc l).
Proof.
  induction l as [| x l IH]; simpl; [constructor |].
  apply insert_desc_sorted, IH.
Qed.

Lemma insert_desc_stable (r x : centrality_row) (l : list centrality_row) :
  filter (key_eqb r) (insert_desc x l) = filter (key_eqb r) (x :: l).
Proof.
  induction l as [| y l IH]; [reflexivity |].
  cbn [insert_desc]. destruct (key_gtb y x) eqn:E; [| reflexivity].
  cbn [filter] in *. rewrite IH.
  destruct (key_eqb r x) eqn:Ex; [| reflexivity].
  rewrite (key_eqb_gtb r x y Ex E). reflexivity.
Qed.

(** Rows with equal keys leave the sort in the order they entered it. *)
Lemma sort_values_desc_stable (r : centrality_row) (l : list centrality_row) :
  filter (key_eqb r) (sort_values_desc l) = filter (key_eqb r) l.
Proof.
  induction l as [| x l IH]; [reflexivity |].
  cbn [sort_values_desc fold_right]. fold (sort_values_desc l).
  rewrite insert_desc_stable. cbn [filter]. rewrite IH. reflexivity.
Qed.

Lemma compute_centralities_sorted
    (deg btw : Graph -> scores) (pr : Graph -> pagerank_failure + scores)
    (G : Graph) :
  compute_centralities deg btw pr (Some G)
  = sort_values_desc (centrality_rows deg btw pr G).
Proof.
  unfold compute_centralities, centrality_rows.
  destruct (g_nodes G); reflexivity.
Qed.

(* ================================================================== *)
(** * Properties of [compute_centralities] *)

(** C3, as stated, fails.  On the graph whose nodes were added in the order
    b, a and that has no edge, both rows have the scores (0, 0, 1/2), and the
    returned table lists b before a although ["a"] is the smaller name. *)
Lemma equal_scores_keep_node_order :
  compute_centralities edgeless_zero edgeless_zero edgeless_pagerank
    (Some (mkGraph ["b"; "a"] []))
  = [mkRow "b" 0 0 (1 # 2); mkRow "a" 0 0 (1 # 2)] /\
  String.ltb "a" "b" = true.
Proof. split; vm_compute; reflexivity. Qed.

(** C3 (amended).  The table returned by [compute_centralities] holds the
    rows of the nodes, sorted descending by PageRank, then degree centrality,
    then betweenness centrality; rows whose three scores are equal appear in
    the order in which [G.nodes()] lists their accounts (the sort is stable
    and looks at no account name). *)
Theorem ranking_sorted_ties_in_node_order
    (degree_centrality betweenness_centrality : Graph -> scores)
    (nx_pagerank : Graph -> pagerank_failure + scores) (G : Graph) :
  let rows :=
    centrality_rows degree_centrality betweenness_centrality nx_pagerank G in
  let table :=
    compute_centralities degree_centrality betweenness_centrality nx_pagerank
      (Some G) in
  Permutation rows table /\
  StronglySorted key_ge table /\
  (forall r, filter (key_eqb r) table = filter (key_eqb r) rows) /\
  map user rows = g_nodes G.
Proof.
  cbv zeta. rewrite compute_centralities_sorted. repeat split.
  - apply sort_values_desc_perm.
  - apply sort_values_desc_sorted.
  - intros r. apply sort_values_desc_stable.
  - unfold centrality_rows. rewrite map_map. simpl. apply map_id.
Qed.

(** C7.  When [nx.pagerank] raises, [compute_centralities] still returns the
    table: one row per node of the graph, each with PageRank 0 and with the
    degree and betweenness scores of its account, sorted as usual.  A graph
    without nodes, and [None], give the empty table. *)
Theorem pagerank_failure_yields_zero_scores
    (degree_centrality betweenness_centrality : Graph -> scores)
    (nx_pagerank : Graph -> pagerank_failure + scores) (G : Graph) :
  (forall e, nx_pagerank G = inl e ->
     let table :=
       compute_centralities degree_centrality betweenness_centrality
         nx_pagerank (Some G) in
     Permutation (g_nodes G) (map user table) /\
     StronglySorted key_ge table /\
     forall r, In r table ->
       pagerank r = 0%Q /\
       degree r = get_score (degree_centrality G) (user r) /\
       betweenness r = get_score (betweenness_centrality G) (user r)) /\
  (g_nodes G = [] ->
   compute_centralities degree_centrality betweenness_centrality nx_pagerank
     (Some G) = []) /\
  compute_centralities degree_centrality betweenness_centrality nx_pagerank
    None = [].
Proof.
  split; [| split].
  - intros e He. cbv zeta. rewrite compute_centralities_sorted.
    pose proof (sort_values_desc_perm
                  (centrality_rows degree_centrality betweenness_centrality
                     nx_pagerank G)) as Hperm.
    split; [| split].
    + assert (map user (centrality_rows degree_centrality
                          betweenness_centrality nx_pagerank G) = g_nodes G)
        as Hu by (unfold centrality_rows; rewrite map_map; apply map_id).
      rewrite <- Hu at 1. apply Permutation_map, Hperm.
    + apply sort_values_desc_sorted.
    + intros r Hr.
      apply (Permutation_in _ (Permutation_sym Hperm)) in Hr.
      unfold centrality_rows in Hr. apply in_map_iff in Hr.
      destruct Hr as [n [<- Hn]]. simpl. split; [| split; reflexivity].
      unfold pagerank_or_zero, get_score. rewrite He.
      destruct (has_node G n); reflexivity.
  - intros Hn. unfold compute_centralities. rewrite Hn. reflexivity.
  - reflexivity.
Qed.

Lemma pagerank_failure_yields_zero_scores_witness :
  Forall (fun r => pagerank r = 0%Q)
    (compute_centralities edgeless_zero edgeless_zero failing_pagerank
       (Some (mkGraph ["b"; "a"; "c"] []))).
Proof.
  apply Forall_forall. intros r Hr.
  destruct (pagerank_failure_yields_zero_scores
              edgeless_zero edgeless_zero failing_pagerank
              (mkGraph ["b"; "a"; "c"] [])) as [Hfail _].
  destruct (Hfail PowerIterationFailedConvergence eq_refl) as [_ [_ Hrows]].
  apply Hrows, Hr.
Defined.

(* ================================================================== *)
(** * Properties of the comment-side column resolution *)

(** C2, as stated, fails.  None of the columns post_id, body, score is an
    author name for the heuristic, and the resolution succeeds with [body],
    the second column, as the comment author. *)
Lemma author_column_falls_back_to_second :
  forallb (fun c => negb (is_comment_author_name c))
          ["post_id"; "body"; "score"] = true /\
  comment_author_col ["post_id"; "body"; "score"] = ret "body" /\
  resolve_comment_columns ["post_id"; "body"; "score"]
  = ret ("post_id", "body").
Proof. repeat split. Qed.

(** C2 (amended).  If no column of the comment relation has a name that, in
    lower case, is one of author, comment_author, user, username, by, the
    resolution raises no schema error and takes a column by position: the
    second column when there are at least two, the only column when there is
    one; it fails, with an [IndexError], only for a relation without
    columns. *)
Theorem comment_author_col_fallback (columns : list string) :
  (forall c, In c columns -> is_comment_author_name c = false) ->
  comment_author_col columns
  = match columns with
    | [] => raise IndexError
    | [c0] => ret c0
    | _ :: c1 :: _ => ret c1
    end.
Proof.
  intros Hnone. unfold comment_author_col.
  destruct (find is_comment_author_name columns) as [c |] eqn:F.
  - apply find_some in F. destruct F as [Hin Hc].
    rewrite (Hnone c Hin) in Hc. discriminate.
  - destruct columns as [| c0 [| c1 rest]]; reflexivity.
Qed.

Lemma comment_author_col_fallback_witness :
  comment_author_col ["link"; "text"] = ret "text".
Proof.
  apply (comment_author_col_fallback ["link"; "text"]).
  intros c [<- | [<- | []]]; reflexivity.
Defined.

(* ================================================================== *)
(** * Properties of the top-N selection *)

Lemma firstn_nil_iff {A : Type} (l : list A) (k : nat) :
  firstn k l = [] <-> k = 0%nat \/ l = [].
Proof.
  destruct k, l; simpl; split; intros H; auto; try discriminate.
  destruct H; discriminate.
Qed.

(** C8, as stated, fails.  With [top_n = -1] and three records the selection
    keeps the first two. *)
Lemma negative_top_n_keeps_records :
  let a := mkRow "a" 0 0 (1 # 2) in
  let b := mkRow "b" 0 0 (1 # 4) in
  let c := mkRow "c" 0 0 (1 # 4) in
  save_top_influencers [a; b; c] (-1) = [a; b] /\
  top_nodes [a; b; c] (-1) = ["a"; "b"].
Proof. cbv zeta. split; reflexivity. Qed.

(** C8 (amended).  For [n >= 0] the selection is the first [n] records of the
    ordered list, all of them when [n] is at least the length of the list and
    none when [n = 0].  For [n < 0] it is the list without its last [-n]
    records, which is empty only when the list has at most [-n] records.
    [draw_graph] selects the accounts of the same records. *)
Theorem top_n_is_python_slice (df : list centrality_row) (n : Z) :
  ((0 <= n)%Z ->
   save_top_influencers df n = firstn (Z.to_nat n) df /\
   List.length (save_top_influencers df n)
   = Nat.min (Z.to_nat n) (List.length df)) /\
  ((Z.of_nat (List.length df) <= n)%Z -> save_top_influencers df n = df) /\
  (n = 0%Z -> save_top_influencers df n = []) /\
  ((n < 0)%Z ->
   save_top_influencers df n
   = firstn (List.length df - Z.to_nat (- n)) df /\
   (save_top_influencers df n = []
    <-> (List.length df <= Z.to_nat (- n))%nat)) /\
  top_nodes df n = map user (save_top_influencers df n).
Proof.
  unfold top_nodes, save_top_influencers, head. repeat split.
  - destruct (Z.leb_spec 0 n); [reflexivity | lia].
  - destruct (Z.leb_spec 0 n); [apply length_firstn | lia].
  - intros Hn. destruct (Z.leb_spec 0 n); [| lia].
    apply firstn_all2. lia.
  - intros ->. reflexivity.
  - destruct (Z.leb_spec 0 n); [lia | reflexivity].
  - destruct (Z.leb_spec 0 n); [lia |].
    intros Hnil. apply firstn_nil_iff in Hnil.
    destruct Hnil as [Hk | ->]; [lia | simpl; lia].
  - destruct (Z.leb_spec 0 n); [lia |].
    intros Hlen. apply firstn_nil_iff. left. lia.
Qed.

(* ================================================================== *)
(** * Further properties of [build_interaction_graph] *)

Lemma edges_satisfy_add_or_increase (Q : string -> string -> Prop)
    (G : Graph) (a b : string) (w : Z) (t : edge_type) :
  Q a b -> edges_satisfy Q G -> edges_satisfy Q (add_or_increase G a b w t).
Proof.
  intros Qab HG. unfold add_or_increase, edges_satisfy.
  destruct (has_edge G a b); simpl; intros e Hin.
  - apply increase_weight_endpoints in Hin.
    destruct Hin as [e0 [Hin [-> [-> _]]]]. apply HG, Hin.
  - rewrite !g_edges_add_node in Hin. apply in_app_iff in Hin.
    destruct Hin as [Hin | [<- | []]]; [apply HG, Hin | exact Qab].
Qed.

Lemma edges_satisfy_add_reply_edges (Q : string -> string -> Prop) (m : Z)
    (c : list (string * string * Z)) (G : Graph) :
  (forall a b w, In (a, b, w) c -> Q a b) ->
  edges_satisfy Q G -> edges_satisfy Q (add_reply_edges m c G).
Proof.
  unfold add_reply_edges. revert G.
  induction c as [| [[a b] w] c IH]; intros G Hc HG; simpl; [assumption |].
  apply IH; [intros a' b' w' Hin; apply (Hc a' b' w'); right; assumption |].
  destruct (m <=? w)%Z; [| assumption].
  apply edges_satisfy_add_or_increase; [| assumption].
  apply (Hc a b w). left. reflexivity.
Qed.

Lemma edges_satisfy_co_comment_group (Q : string -> string -> Prop)
    (G : Graph) (group : list row) :
  (forall u v, u <> v -> In u (map author group) -> In v (map author group) ->
               Q u v) ->
  edges_satisfy Q G -> edges_satisfy Q (co_comment_group G group).
Proof.
  intros HQ. unfold co_comment_group.
  destruct (List.length (unique (map author group)) <? 2)%nat; [auto |].
  assert (forall u v, In (u, v) (combinations2 (unique (map author group)))
                      -> u <> v -> Q u v) as Hl.
  { intros u v Hin Hne. apply combinations2_In in Hin.
    rewrite !In_unique in Hin. destruct Hin. auto. }
  revert G. induction (combinations2 (unique (map author group)))
    as [| [u v] l IH]; intros G HG; simpl; [assumption |].
  apply IH; [intros u' v' Hin; apply Hl; right; assumption |].
  destruct (String.eqb_spec u v); [assumption |].
  apply edges_satisfy_add_or_increase; [| assumption].
  apply Hl; [left; reflexivity | assumption].
Qed.

Lemma edges_satisfy_add_co_comment_edges (Q : string -> string -> Prop)
    (comments : list row) (G : Graph) :
  (forall u v, u <> v -> In u (map author comments) ->
               In v (map author comments) -> Q u v) ->
  edges_satisfy Q G -> edges_satisfy Q (add_co_comment_edges comments G).
Proof.
  intros HQ. unfold add_co_comment_edges.
  assert (forall g, In g (groupby comments) ->
            forall a, In a (map author (snd g)) -> In a (map author comments))
    as Hg.
  { intros g Hin a Ha. unfold groupby in Hin. apply in_map_iff in Hin.
    destruct Hin as [pid [<- _]]. simpl in Ha.
    apply in_map_iff in Ha. destruct Ha as [r [<- Hr]].
    apply in_map. unfold group_of in Hr. apply filter_In in Hr. tauto. }
  revert G. induction (groupby comments) as [| g gs IH]; intros G HG; simpl;
    [assumption |].
  apply IH; [intros g' Hin; apply (Hg g'); right; assumption |].
  apply edges_satisfy_co_comment_group; [| assumption].
  intros u v Hne Hu Hv.
  apply HQ; [assumption | |]; apply (Hg g); auto; left; reflexivity.
Qed.

Lemma counter_pairs_shape (posts comments : list row) (a b : string) (w : Z) :
  In (a, b, w) (Counter (author_comment_pairs (merge_left comments posts))) ->
  exists c, In c comments /\ In (a, b) (reply_pairs_of_comment posts c).
Proof.
  intros Hin. apply Counter_keys in Hin. simpl in Hin.
  apply In_author_comment_pairs, Hin.
Qed.

Lemma endpoints_add_node (G : Graph) (u : string) :
  endpoints_are_nodes G -> endpoints_are_nodes (add_node G u).
Proof.
  unfold endpoints_are_nodes. intros HG e Hin.
  rewrite g_edges_add_node in Hin. destruct (HG e Hin).
  split; apply g_nodes_add_node; auto.
Qed.

Lemma endpoints_add_or_increase (G : Graph) (a b : string) (w : Z)
    (t : edge_type) :
  endpoints_are_nodes G -> endpoints_are_nodes (add_or_increase G a b w t).
Proof.
  unfold add_or_increase. intros HG. destruct (has_edge G a b).
  - intros e Hin. simpl in *. apply increase_weight_endpoints in Hin.
    destruct Hin as [e0 [Hin [-> [-> _]]]]. apply HG, Hin.
  - unfold add_edge. intros e Hin. simpl in *.
    apply in_app_iff in Hin. destruct Hin as [Hin | [<- | []]].
    + apply (endpoints_add_node _ b (endpoints_add_node G a HG)), Hin.
    + simpl. split; apply g_nodes_add_node; [right | left; reflexivity].
      apply g_nodes_add_node. left. reflexivity.
Qed.

Lemma endpoints_build (set_iter : list string -> list string)
    (posts comments : list row) (m : Z) :
  endpoints_are_nodes (build_interaction_graph set_iter posts comments m).
Proof.
  unfold build_interaction_graph, add_co_comment_edges.
  assert (endpoints_are_nodes (reply_graph set_iter posts comments m)) as Hr.
  { unfold reply_graph, add_reply_edges.
    assert (endpoints_are_nodes (node_graph set_iter posts comments)) as Hn.
    { intros e Hin. unfold node_graph in Hin.
      rewrite g_edges_add_nodes in Hin. destruct Hin. }
    revert Hn. generalize (node_graph set_iter posts comments).
    induction (Counter (author_comment_pairs (merge_left comments posts)))
      as [| [[a b] w] c IH]; intros G HG; simpl; [assumption |].
    apply IH. destruct (m <=? w)%Z; [| assumption].
    apply endpoints_add_or_increase, HG. }
  revert Hr. generalize (reply_graph set_iter posts comments m).
  induction (groupby comments) as [| g gs IH]; intros G HG; simpl;
    [assumption |].
  apply IH. unfold co_comment_group.
  destruct (List.length (unique (map author (snd g))) <? 2)%nat;
    [assumption |].
  revert HG. generalize G.
  induction (combinations2 (unique (map author (snd g)))) as [| [u v] l IHl];
    intros G' HG'; simpl; [assumption |].
  apply IHl. destruct (u =? v); [assumption |].
  apply endpoints_add_or_increase, HG'.
Qed.

(** X1.  The returned graph has no self-loop, and every edge joins two of
    its nodes. *)
Theorem build_no_self_loops (set_iter : list string -> list string)
    (posts comments : list row) (m : Z) (e : edge) :
  In e (g_edges (build_interaction_graph set_iter posts comments m)) ->
  e_u e <> e_v e /\
  In (e_u e) (g_nodes (build_interaction_graph set_iter posts comments m)) /\
  In (e_v e) (g_nodes (build_interaction_graph set_iter posts comments m)).
Proof.
  intros Hin. split; [| apply endpoints_build, Hin].
  revert e Hin. fold (edges_satisfy (fun u v => u <> v)
    (build_interaction_graph set_iter posts comments m)).
  unfold build_interaction_graph, reply_graph.
  apply edges_satisfy_add_co_comment_edges; [auto |].
  apply edges_satisfy_add_reply_edges.
  - intros a b w Hin. apply counter_pairs_shape in Hin.
    destruct Hin as [c [_ Hin]]. apply reply_pair_shape in Hin. tauto.
  - intros e Hin. unfold node_graph in Hin.
    rewrite g_edges_add_nodes in Hin. destruct Hin.
Qed.

Lemma build_no_self_loops_witness :
  let G := build_interaction_graph first_seen [("p1", "alice")]
             [("p1", "bob"); ("p1", "alice")] 1 in
  "alice" <> "bob" /\ In "alice" (g_nodes G) /\ In "bob" (g_nodes G).
Proof.
  apply (build_no_self_loops first_seen [("p1", "alice")]
           [("p1", "bob"); ("p1", "alice")] 1
           (mkEdge "alice" "bob" 2 author_comment)).
  vm_compute. auto.
Defined.

(** X2.  The nodes of the returned graph are authors: every node is the
    author of a post row or of a comment row, or is ["[deleted]"]; and when
    iterating [all_users] visits each member, every such author is a
    node. *)
Theorem build_nodes_are_authors (set_iter : list string -> list string)
    (posts comments : list row) (m : Z) :
  (forall l x, In x (set_iter l) <-> In x l) ->
  forall x,
    (In x (g_nodes (build_interaction_graph set_iter posts comments m)) ->
     In x (map author posts) \/ In x (map author comments) \/ x = deleted) /\
    (In x (map author posts) \/ In x (map author comments) ->
     In x (g_nodes (build_interaction_graph set_iter posts comments m))).
Proof.
  intros Hiter x. split.
  - assert (confined (fun x => In x (map author posts) \/
                               In x (map author comments) \/ x = deleted)
              (build_interaction_graph set_iter posts comments m))
      as [Hn _]; [| apply Hn].
    unfold build_interaction_graph, reply_graph, node_graph.
    apply confined_add_co_comment_edges; [tauto |].
    apply confined_add_reply_edges.
    + intros [[a b] w] Hin. apply counter_pairs_shape in Hin.
      destruct Hin as [c [Hc Hin]]. apply reply_pair_shape in Hin. simpl.
      destruct Hin as (Hb & _ & _ & _ & [[p [Hp1 [_ Hp3]]] | [Ha _]]).
      * split; [left; rewrite <- Hp3; apply in_map, Hp1 |].
        right. left. rewrite Hb. apply in_map, Hc.
      * split; [auto |]. right. left. rewrite Hb. apply in_map, Hc.
    + apply confined_add_nodes; [| split; simpl; tauto].
      intros y Hy. unfold all_users in Hy. apply (proj1 (Hiter _ _)) in Hy.
      apply in_app_iff in Hy. rewrite !In_unique in Hy. tauto.
  - intros Hx. apply authors_are_nodes. unfold all_users.
    apply (proj2 (Hiter _ _)), in_app_iff. rewrite !In_unique. exact Hx.
Qed.

Lemma build_nodes_are_authors_witness :
  In "carol" (g_nodes (build_interaction_graph first_seen
                         [("p1", "alice")] [("p2", "carol")] 1)).
Proof.
  apply (build_nodes_are_authors first_seen
           [("p1", "alice")] [("p2", "carol")] 1
           (fun l x => In_unique x l) "carol").
  right. simpl. auto.
Defined.

Lemma has_edge_find (G : Graph) (u v : string) :
  has_edge G u v = true ->
  exists e, In e (g_edges G) /\ weight0 G u v = e_weight e.
Proof.
  unfold has_edge. rewrite weight0_edges. unfold edges_weight. intros Hex.
  destruct (find (joins u v) (g_edges G)) as [e |] eqn:F.
  - exists e. apply find_some in F. tauto.
  - apply existsb_exists in Hex. destruct Hex as [e [Hin Hj]].
    rewrite (find_none _ _ F e Hin) in Hj. discriminate.
Qed.

(** In a graph whose edges weigh at least 1, the edges are the pairs of
    positive weight. *)
Lemma has_edge_iff_weight (G : Graph) (u v : string) :
  weights_at_least 1 G ->
  (has_edge G u v = true <-> (1 <= weight0 G u v)%Z).
Proof.
  intros HG. split.
  - intros He. apply has_edge_find in He. destruct He as [e [Hin ->]].
    unfold weights_at_least in HG. rewrite Forall_forall in HG.
    apply HG, Hin.
  - intros Hw. apply weight0_pos_has_edge. lia.
Qed.

Lemma weights_at_least_build (set_iter : list string -> list string)
    (posts comments : list row) (m : Z) :
  weights_at_least 1 (build_interaction_graph set_iter posts comments m).
Proof.
  unfold build_interaction_graph, reply_graph.
  apply weights_at_least_co; [lia |].
  apply weights_at_least_reply;
    [lia | apply Counter_pos | apply weights_at_least_node_graph].
Qed.

(* ------------------------------------------------------------------ *)
(** ** The counts of a [Counter] *)

Lemma pair_eqb_refl (k : string * string) : pair_eqb k k = true.
Proof. apply pair_eqb_eq. reflexivity. Qed.

Lemma pair_eqb_neq (p q : string * string) : pair_eqb p q = false <-> p <> q.
Proof.
  rewrite <- pair_eqb_eq. destruct (pair_eqb p q); split; congruence.
Qed.

Lemma lookup_count_incr (k k' : string * string)
    (c : list (string * string * Z)) :
  lookup_count k (counter_incr k' c)
  = (lookup_count k c + if pair_eqb k k' then 1 else 0)%Z.
Proof.
  induction c as [| [k0 n] c IH]; simpl.
  - destruct (pair_eqb k k'); lia.
  - destruct (pair_eqb k' k0) eqn:E; simpl.
    + apply pair_eqb_eq in E. subst k0.
      destruct (pair_eqb k k'); lia.
    + destruct (pair_eqb k k0) eqn:E0; [| apply IH].
      apply pair_eqb_eq in E0. subst k0.
      assert (pair_eqb k k' = false) as ->; [| lia].
      apply pair_eqb_neq. apply pair_eqb_neq in E. congruence.
Qed.

Lemma lookup_count_fold (k : string * string) (l : list (string * string))
    (c : list (string * string * Z)) :
  lookup_count k (fold_left (fun c k => counter_incr k c) l c)
  = (lookup_count k c + count_pair k l)%Z.
Proof.
  revert c. induction l as [| p l IH]; intros c; simpl; [lia |].
  rewrite IH, lookup_count_incr. lia.
Qed.

(** A [Counter] holds for every pair its number of occurrences. *)
Lemma lookup_count_Counter (k : string * string) (l : list (string * string)) :
  lookup_count k (Counter l) = count_pair k l.
Proof. unfold Counter. rewrite lookup_count_fold. simpl. lia. Qed.

Lemma counter_incr_fst (k : string * string) (c : list (string * string * Z)) :
  map fst (counter_incr k c)
  = if existsb (pair_eqb k) (map fst c) then map fst c else map fst c ++ [k].
Proof.
  induction c as [| [k0 n] c IH]; simpl; [reflexivity |].
  destruct (pair_eqb k k0); simpl; [reflexivity |].
  rewrite IH. destruct (existsb (pair_eqb k) (map fst c)); reflexivity.
Qed.

Lemma counter_incr_NoDup (k : string * string)
    (c : list (string * string * Z)) :
  NoDup (map fst c) -> NoDup (map fst (counter_incr k c)).
Proof.
  intros Hnd. rewrite counter_incr_fst.
  destruct (existsb (pair_eqb k) (map fst c)) eqn:E; [assumption |].
  apply (Permutation_NoDup (Permutation_cons_append (map fst c) k)).
  constructor; [| assumption].
  intros Hin.
  assert (existsb (pair_eqb k) (map fst c) = true) as Hex; [| congruence].
  apply existsb_exists. exists k. split; [assumption | apply pair_eqb_refl].
Qed.

(** The keys of a [Counter] are pairwise distinct. *)
Lemma Counter_NoDup (l : list (string * string)) :
  NoDup (map fst (Counter l)).
Proof.
  unfold Counter.
  assert (forall c, NoDup (map fst c) ->
            NoDup (map fst (fold_left (fun c k => counter_incr k c) l c)))
    as H.
  { induction l as [| k l IH]; intros c Hc; simpl; [assumption |].
    apply IH, counter_incr_NoDup, Hc. }
  apply H. constructor.
Qed.

Lemma lookup_count_absent (k : string * string)
    (c : list (string * string * Z)) :
  ~ In k (map fst c) -> lookup_count k c = 0%Z.
Proof.
  induction c as [| [k0 n] c IH]; simpl; intros Hk; [reflexivity |].
  destruct (pair_eqb k k0) eqn:E.
  - apply pair_eqb_eq in E. subst. tauto.
  - apply IH. tauto.
Qed.

Lemma same_pair_keys (a b u v : string) :
  same_pair a b u v = pair_eqb (u, v) (a, b) || pair_eqb (v, u) (a, b).
Proof.
  unfold same_pair, pair_eqb. simpl.
  rewrite (String.eqb_sym a u), (String.eqb_sym b v),
    (String.eqb_sym a v), (String.eqb_sym b u). reflexivity.
Qed.

Lemma threshold_count_zero (m : Z) : threshold_count m 0 = 0%Z.
Proof.
  unfold threshold_count. destruct ((m <=? 0) && (1 <=? 0))%Z; reflexivity.
Qed.

Lemma threshold_count_pos (m n : Z) :
  (1 <= n)%Z -> threshold_count m n = if (m <=? n)%Z then n else 0%Z.
Proof.
  intros Hn. unfold threshold_count.
  destruct (Z.leb_spec 1 n); [| lia]. rewrite andb_true_r. reflexivity.
Qed.

(** What the kept entries of a counter put on a pair of accounts: the
    thresholded count of each of the two orders of the pair. *)
Lemma pair_total_kept (m : Z) (u v : string)
    (c : list (string * string * Z)) :
  NoDup (map fst c) ->
  Forall (fun item => (1 <= snd item)%Z) c ->
  pair_total u v (kept m c)
  = (threshold_count m (lookup_count (u, v) c)
     + if String.eqb u v then 0
       else threshold_count m (lookup_count (v, u) c))%Z.
Proof.
  induction c as [| [[a b] n] c IH]; intros Hnd Hpos.
  - simpl. rewrite threshold_count_zero. destruct (String.eqb u v); reflexivity.
  - inversion Hnd as [| ? ? Hk Hnd']; subst.
    inversion Hpos as [| ? ? Hn Hpos']; subst. simpl in Hn.
    specialize (IH Hnd' Hpos'). cbn [lookup_count].
    assert (pair_total u v (kept m ((a, b, n) :: c))
            = ((if (m <=? n)%Z && same_pair a b u v then n else 0)
               + pair_total u v (kept m c))%Z) as ->.
    { unfold kept. cbn [filter snd]. destruct (m <=? n)%Z; reflexivity. }
    rewrite IH, same_pair_keys.
    destruct (pair_eqb (u, v) (a, b)) eqn:E1;
      destruct (pair_eqb (v, u) (a, b)) eqn:E2.
    + apply pair_eqb_eq in E1. apply pair_eqb_eq in E2.
      inversion E1; inversion E2; subst. rewrite String.eqb_refl.
      rewrite (lookup_count_absent _ c Hk), threshold_count_zero.
      rewrite (threshold_count_pos m n Hn). cbn [orb]. rewrite ?andb_true_r. lia.
    + apply pair_eqb_eq in E1. inversion E1; subst.
      rewrite (lookup_count_absent _ c Hk), threshold_count_zero.
      rewrite (threshold_count_pos m n Hn). cbn [orb]. rewrite ?andb_true_r. lia.
    + apply pair_eqb_eq in E2. inversion E2; subst.
      assert (String.eqb b a = false) as Hne.
      { apply String.eqb_neq. intros ->. apply pair_eqb_neq in E1. tauto. }
      rewrite Hne.
      rewrite (lookup_count_absent _ c Hk), threshold_count_zero.
      rewrite (threshold_count_pos m n Hn). cbn [orb]. rewrite ?andb_true_r. lia.
    + rewrite andb_false_r. lia.
Qed.

(** The weight of a pair after the reply pass, from the number of reply
    pairs recorded in each order. *)
Lemma weight0_reply_graph_counts (set_iter : list string -> list string)
    (posts comments : list row) (m : Z) (u v : string) :
  weight0 (reply_graph set_iter posts comments m) u v
  = (threshold_count m
       (count_pair (u, v) (author_comment_pairs (merge_left comments posts)))
     + if String.eqb u v then 0
       else threshold_count m
              (count_pair (v, u)
                 (author_comment_pairs (merge_left comments posts))))%Z.
Proof.
  rewrite weight0_reply_graph.
  rewrite pair_total_kept by (apply Counter_NoDup || apply Counter_pos).
  rewrite !lookup_count_Counter. reflexivity.
Qed.

(* ------------------------------------------------------------------ *)
(** ** The co-comment increments of a pair *)

Lemma co_total_groups (u v : string) (comments : list row) :
  co_total u v comments
  = Z.of_nat (List.length
                (filter (shares_group comments u v)
                        (sort_keys (unique (map post_id comments))))).
Proof.
  unfold co_total, groupby.
  induction (sort_keys (unique (map post_id comments))) as [| pid l IH];
    [reflexivity |].
  cbn [map fold_right filter snd]. rewrite IH, pair_count_co_increments.
  fold (shares_group comments u v pid).
  destruct (shares_group comments u v pid); cbn [List.length]; lia.
Qed.

(** X3.  The weight of every pair of accounts in the returned graph, from
    the two relations: the number of reply pairs recorded for the pair in
    each order, each counted only when it is at least [min_edge_weight],
    plus the number of post ids on which both accounts commented.  The edges
    of the graph are exactly the pairs whose weight is at least 1. *)
Theorem build_weight_formula (set_iter : list string -> list string)
    (posts comments : list row) (m : Z) (u v : string) :
  let pairs := author_comment_pairs (merge_left comments posts) in
  let G := build_interaction_graph set_iter posts comments m in
  weight0 G u v
  = (threshold_count m (count_pair (u, v) pairs)
     + (if String.eqb u v then 0
        else threshold_count m (count_pair (v, u) pairs))
     + Z.of_nat (List.length
                   (filter (shares_group comments u v)
                           (sort_keys (unique (map post_id comments))))))%Z /\
  (has_edge G u v = true <-> (1 <= weight0 G u v)%Z).
Proof.
  cbv zeta. split.
  - rewrite weight0_build, weight0_reply_graph_counts, co_total_groups.
    reflexivity.
  - apply has_edge_iff_weight, weights_at_least_build.
Qed.

(* ------------------------------------------------------------------ *)
(** ** Reordering the rows *)

Lemma count_pair_perm (k : string * string) (l l' : list (string * string)) :
  Permutation l l' -> count_pair k l = count_pair k l'.
Proof. induction 1; simpl; lia. Qed.

Lemma filter_perm {A : Type} (f : A -> bool) (l l' : list A) :
  Permutation l l' -> Permutation (filter f l) (filter f l').
Proof.
  induction 1; simpl.
  - constructor.
  - destruct (f x); [apply perm_skip |]; assumption.
  - destruct (f x), (f y); try apply Permutation_refl. apply perm_swap.
  - eapply perm_trans; eassumption.
Qed.

Lemma flat_map_perm_pointwise {A B : Type} (f g : A -> list B) (l : list A) :
  (forall x, Permutation (f x) (g x)) ->
  Permutation (flat_map f l) (flat_map g l).
Proof.
  intros H. induction l as [| x l IH]; simpl; [constructor |].
  apply Permutation_app; auto.
Qed.

Lemma merge_one_perm (posts posts' : list row) (c : row) :
  Permutation posts posts' ->
  Permutation (merge_one posts c) (merge_one posts' c).
Proof.
  intros H. unfold merge_one, matching_posts.
  pose proof (filter_perm (fun p => post_id p =? post_id c) _ _ H) as Hf.
  destruct (filter (fun p => post_id p =? post_id c) posts) as [| p ms] eqn:E.
  - apply Permutation_nil in Hf. rewrite Hf. apply Permutation_refl.
  - destruct (filter (fun p => post_id p =? post_id c) posts')
      as [| p' ms'] eqn:E'.
    + apply Permutation_sym, Permutation_nil in Hf. discriminate.
    + apply Permutation_map, Hf.
Qed.

Lemma author_comment_pairs_perm (posts posts' comments comments' : list row) :
  Permutation posts posts' -> Permutation comments comments' ->
  Permutation (author_comment_pairs (merge_left comments posts))
              (author_comment_pairs (merge_left comments' posts')).
Proof.
  intros Hp Hc. rewrite !author_comment_pairs_flat.
  eapply perm_trans.
  - apply Permutation_flat_map, Hc.
  - apply flat_map_perm_pointwise. intros c.
    rewrite !reply_pairs_of_comment_merge.
    apply Permutation_flat_map, merge_one_perm, Hp.
Qed.

Lemma insert_key_perm (k : string) (l : list string) :
  Permutation (k :: l) (insert_key k l).
Proof.
  induction l as [| x l IH]; simpl; [apply Permutation_refl |].
  destruct (String.leb k x); [apply Permutation_refl |].
  eapply perm_trans; [apply perm_swap | apply perm_skip, IH].
Qed.

Lemma sort_keys_perm (l : list string) : Permutation l (sort_keys l).
Proof.
  induction l as [| x l IH]; simpl; [constructor |].
  eapply perm_trans; [apply perm_skip, IH | apply insert_key_perm].
Qed.

Lemma group_keys_perm (comments comments' : list row) :
  Permutation comments comments' ->
  Permutation (sort_keys (unique (map post_id comments)))
              (sort_keys (unique (map post_id comments'))).
Proof.
  intros H. apply NoDup_Permutation.
  - apply (Permutation_NoDup (sort_keys_perm _)), NoDup_unique.
  - apply (Permutation_NoDup (sort_keys_perm _)), NoDup_unique.
  - intros x. rewrite !sort_keys_In, !In_unique.
    split; apply Permutation_in, Permutation_map;
      [assumption | apply Permutation_sym, H].
Qed.

Lemma In_group_authors (comments : list row) (pid x : string) :
  In x (map author (group_of comments pid)) <-> In (pid, x) comments.
Proof.
  rewrite in_map_iff. split.
  - intros [[p a] [Ha Hin]]. simpl in Ha. subst a.
    unfold group_of in Hin. apply filter_In in Hin. destruct Hin as [Hin Hp].
    apply String.eqb_eq in Hp. simpl in Hp. subst p. assumption.
  - intros Hin. exists (pid, x). split; [reflexivity |].
    apply (proj1 (group_of_In comments pid x)), Hin.
Qed.

Lemma mem_ext (x : string) (l l' : list string) :
  (In x l <-> In x l') -> mem x l = mem x l'.
Proof.
  intros H. destruct (mem x l') eqn:E.
  - apply mem_In, H, mem_In, E.
  - apply mem_false. intros Hin. apply mem_false in E. tauto.
Qed.

Lemma shares_group_perm (comments comments' : list row) (u v pid : string) :
  Permutation comments comments' ->
  shares_group comments u v pid = shares_group comments' u v pid.
Proof.
  intros H. unfold shares_group.
  rewrite (mem_ext u _ (map author (group_of comments' pid))),
    (mem_ext v _ (map author (group_of comments' pid))); [reflexivity | |];
    rewrite !In_group_authors; split; apply Permutation_in;
      assumption || apply Permutation_sym, H.
Qed.

(** X4.  The order of the rows of either relation, and the order in which
    [all_users] is iterated, have no effect on the weights and on the edges
    of the returned graph. *)
Theorem build_row_order_irrelevant
    (set_iter set_iter' : list string -> list string)
    (posts posts' comments comments' : list row) (m : Z) (u v : string) :
  Permutation posts posts' -> Permutation comments comments' ->
  weight0 (build_interaction_graph set_iter posts comments m) u v
  = weight0 (build_interaction_graph set_iter' posts' comments' m) u v /\
  has_edge (build_interaction_graph set_iter posts comments m) u v
  = has_edge (build_interaction_graph set_iter' posts' comments' m) u v.
Proof.
  intros Hp Hc.
  assert (weight0 (build_interaction_graph set_iter posts comments m) u v
          = weight0 (build_interaction_graph set_iter' posts' comments' m) u v)
    as Hw.
  { rewrite !weight0_build, !weight0_reply_graph_counts, !co_total_groups.
    pose proof (author_comment_pairs_perm _ _ _ _ Hp Hc) as Hpairs.
    rewrite (count_pair_perm (u, v) _ _ Hpairs),
      (count_pair_perm (v, u) _ _ Hpairs).
    rewrite (filter_ext (shares_group comments u v)
                        (shares_group comments' u v))
      by (intros pid; apply shares_group_perm, Hc).
    rewrite (Permutation_length
               (filter_perm (shares_group comments' u v) _ _
                  (group_keys_perm _ _ Hc))).
    reflexivity. }
  split; [exact Hw |].
  pose proof (has_edge_iff_weight _ u v
                (weights_at_least_build set_iter posts comments m)) as H1.
  pose proof (has_edge_iff_weight _ u v
                (weights_at_least_build set_iter' posts' comments' m)) as H2.
  rewrite Hw in H1.
  destruct (has_edge (build_interaction_graph set_iter posts comments m) u v),
    (has_edge (build_interaction_graph set_iter' posts' comments' m) u v);
    try reflexivity.
  - symmetry. apply H2, H1. reflexivity.
  - apply H1, H2. reflexivity.
Qed.

Lemma build_row_order_irrelevant_witness :
  weight0 (build_interaction_graph first_seen
             [("p1", "alice"); ("p2", "dave")]
             [("p1", "bob"); ("p2", "bob"); ("p1", "carol")] 1) "bob" "carol"
  = weight0 (build_interaction_graph (@rev string)
               [("p2", "dave"); ("p1", "alice")]
               [("p2", "bob"); ("p1", "carol"); ("p1", "bob")] 1)
      "bob" "carol".
Proof.
  apply (build_row_order_irrelevant first_seen (@rev string)
           [("p1", "alice"); ("p2", "dave")]
           [("p2", "dave"); ("p1", "alice")]
           [("p1", "bob"); ("p2", "bob"); ("p1", "carol")]
           [("p2", "bob"); ("p1", "carol"); ("p1", "bob")] 1 "bob" "carol").
  - apply perm_swap.
  - apply (Permutation_cons_append [("p2", "bob"); ("p1", "carol")]
             ("p1", "bob")).
Defined.

(* ------------------------------------------------------------------ *)
(** ** The sum of all weights *)

Lemma total_weight_add_reply_edges (m : Z) (c : list (string * string * Z))
    (G : Graph) :
  total_weight (add_reply_edges m c G)
  = (total_weight G + sum_counts (kept m c))%Z.
Proof.
  unfold add_reply_edges, sum_counts, kept. revert G.
  induction c as [| [[a b] w] c IH]; intros G; simpl; [lia |].
  rewrite IH. destruct (m <=? w)%Z; simpl; [| lia].
  rewrite total_weight_add_or_increase. lia.
Qed.

Lemma co_increments_length (group : list row) :
  List.length (co_increments group)
  = (List.length (unique (map author group))
     * (List.length (unique (map author group)) - 1) / 2)%nat.
Proof.
  unfold co_increments.
  destruct (Nat.ltb_spec (List.length (unique (map author group))) 2)
    as [Hlt | Hge].
  - destruct (unique (map author group)) as [| x [| y l]];
      simpl in Hlt; try lia; reflexivity.
  - rewrite filter_distinct_combinations2 by apply NoDup_unique.
    apply combinations2_length.
Qed.

Lemma total_weight_co_comment_group (G : Graph) (group : list row) :
  total_weight (co_comment_group G group)
  = (total_weight G + Z.of_nat (List.length (co_increments group)))%Z.
Proof.
  unfold co_comment_group, co_increments.
  destruct (List.length (unique (map author group)) <? 2)%nat;
    [simpl; lia | apply total_weight_co_comment_steps].
Qed.

Lemma total_weight_add_co_comment_edges (comments : list row) (G : Graph) :
  total_weight (add_co_comment_edges comments G)
  = (total_weight G + Z.of_nat (commenter_pairs comments))%Z.
Proof.
  unfold add_co_comment_edges, commenter_pairs. revert G.
  induction (groupby comments) as [| g gs IH]; intros G;
    cbn [fold_left fold_right]; [simpl; lia |].
  rewrite IH, total_weight_co_comment_group, co_increments_length.
  cbv zeta. rewrite Nat2Z.inj_add. lia.
Qed.

Lemma sum_counts_incr (k : string * string) (c : list (string * string * Z)) :
  sum_counts (counter_incr k c) = (sum_counts c + 1)%Z.
Proof.
  unfold sum_counts. induction c as [| [k' n] c IH]; simpl; [lia |].
  destruct (pair_eqb k k'); simpl; [lia | rewrite IH; lia].
Qed.

(** The counts of a [Counter] add up to the length of the counted list. *)
Lemma sum_counts_Counter (l : list (string * string)) :
  sum_counts (Counter l) = Z.of_nat (List.length l).
Proof.
  unfold Counter.
  assert (forall c, sum_counts (fold_left (fun c k => counter_incr k c) l c)
                    = (sum_counts c + Z.of_nat (List.length l))%Z) as H.
  { induction l as [| k l IH]; intros c; simpl List.length; simpl fold_left;
      [lia |].
    rewrite IH, sum_counts_incr. lia. }
  rewrite H. unfold sum_counts. simpl. lia.
Qed.

(** X5.  The weights of the returned graph add up to the kept reply counts
    plus one unit per pair of distinct commenters of each post-id group.
    With a threshold of at most 1 that is the number of recorded reply pairs
    plus the sum, over the groups, of [k * (k - 1) / 2] for [k] distinct
    commenters. *)
Theorem build_total_weight (set_iter : list string -> list string)
    (posts comments : list row) (m : Z) :
  let pairs := author_comment_pairs (merge_left comments posts) in
  total_weight (build_interaction_graph set_iter posts comments m)
  = (sum_counts (kept m (Counter pairs))
     + Z.of_nat (commenter_pairs comments))%Z /\
  ((m <= 1)%Z ->
   total_weight (build_interaction_graph set_iter posts comments m)
   = Z.of_nat (List.length pairs + commenter_pairs comments)).
Proof.
  cbv zeta.
  assert (total_weight (build_interaction_graph set_iter posts comments m)
          = (sum_counts
               (kept m (Counter
                          (author_comment_pairs (merge_left comments posts))))
             + Z.of_nat (commenter_pairs comments))%Z) as Ht.
  { unfold build_interaction_graph, reply_graph.
    rewrite total_weight_add_co_comment_edges, total_weight_add_reply_edges.
    unfold total_weight at 1, node_graph. rewrite g_edges_add_nodes.
    simpl. lia. }
  split; [exact Ht |].
  intros Hm. rewrite Ht, kept_all by (assumption || apply Counter_pos).
  rewrite sum_counts_Counter. lia.
Qed.

(* ------------------------------------------------------------------ *)
(** ** Low and high thresholds *)

Lemma add_reply_edges_low (m : Z) (c : list (string * string * Z))
    (G : Graph) :
  (m <= 1)%Z -> Forall (fun item => (1 <= snd item)%Z) c ->
  add_reply_edges m c G = add_reply_edges 1 c G.
Proof.
  intros Hm. unfold add_reply_edges. revert G.
  induction c as [| [[a b] w] c IH]; intros G Hc; simpl; [reflexivity |].
  inversion Hc as [| ? ? Hw Hc']; subst. simpl in Hw.
  destruct (Z.leb_spec m w); [| lia]. destruct (Z.leb_spec 1 w); [| lia].
  apply IH, Hc'.
Qed.

Lemma count_pair_nonneg (k : string * string) (l : list (string * string)) :
  (0 <= count_pair k l)%Z.
Proof.
  induction l as [| p l IH]; simpl; [lia |]. destruct (pair_eqb k p); lia.
Qed.

Lemma threshold_count_antitone (m m' n : Z) :
  (m <= m')%Z -> (0 <= n)%Z ->
  (threshold_count m' n <= threshold_count m n)%Z.
Proof.
  intros Hm Hn. unfold threshold_count.
  destruct (Z.leb_spec m' n), (Z.leb_spec m n), (Z.leb_spec 1 n);
    simpl; lia.
Qed.

(** X6.  A threshold of 1 or less drops nothing: every [min_edge_weight <= 1]
    gives the graph of the default, 1.  Raising the threshold never raises
    the weight of a pair. *)
Theorem build_threshold_range (set_iter : list string -> list string)
    (posts comments : list row) (m : Z) :
  ((m <= 1)%Z ->
   build_interaction_graph set_iter posts comments m
   = build_interaction_graph set_iter posts comments 1) /\
  (forall m' u v,
      (m <= m')%Z ->
      (weight0 (build_interaction_graph set_iter posts comments m') u v
       <= weight0 (build_interaction_graph set_iter posts comments m) u v)%Z).
Proof.
  split.
  - intros Hm. unfold build_interaction_graph, reply_graph.
    rewrite (add_reply_edges_low m) by (assumption || apply Counter_pos).
    reflexivity.
  - intros m' u v Hm. rewrite !weight0_build, !weight0_reply_graph_counts.
    pose proof (threshold_count_antitone m m' _ Hm
                  (count_pair_nonneg (u, v)
                     (author_comment_pairs (merge_left comments posts)))).
    pose proof (threshold_count_antitone m m' _ Hm
                  (count_pair_nonneg (v, u)
                     (author_comment_pairs (merge_left comments posts)))).
    destruct (String.eqb u v); lia.
Qed.

(* ------------------------------------------------------------------ *)
(** ** Empty relations *)

Lemma pair_total_none (u v : string) (c : list (string * string * Z)) :
  (forall a b w, In (a, b, w) c -> same_pair a b u v = false) ->
  pair_total u v c = 0%Z.
Proof.
  induction c as [| [[a b] w] c IH]; intros H; simpl; [reflexivity |].
  rewrite (H a b w) by (left; reflexivity).
  rewrite IH; [reflexivity |]. intros a' b' w' Hin. apply (H a' b' w').
  right. assumption.
Qed.

(** X7.  Empty relations.  Without comment rows the returned graph has no
    edge and its nodes are the post authors that the iteration visits.
    Without post rows every reply pair has ["[deleted]"] as its post author,
    so that between two accounts other than ["[deleted]"] only co-comment
    weight remains. *)
Theorem build_empty_relations (set_iter : list string -> list string)
    (posts comments : list row) (m : Z) :
  (g_edges (build_interaction_graph set_iter posts [] m) = [] /\
   forall x, In x (g_nodes (build_interaction_graph set_iter posts [] m))
             <-> In x (set_iter (unique (map author posts) ++ []))) /\
  (forall a b, In (a, b) (author_comment_pairs (merge_left comments []))
               -> a = deleted) /\
  (forall u v, u <> deleted -> v <> deleted ->
     weight0 (build_interaction_graph set_iter [] comments m) u v
     = co_total u v comments).
Proof.
  assert (forall a b, In (a, b) (author_comment_pairs (merge_left comments []))
                      -> a = deleted) as Hpairs.
  { intros a b Hin. apply In_author_comment_pairs in Hin.
    destruct Hin as [c [_ Hin]]. apply reply_pair_shape in Hin.
    destruct Hin as (_ & _ & _ & _ & [[p [[] _]] | [Ha _]]). exact Ha. }
  assert (build_interaction_graph set_iter posts [] m
          = node_graph set_iter posts []) as Hempty by reflexivity.
  split; [split | split].
  - rewrite Hempty. unfold node_graph. apply g_edges_add_nodes.
  - intros x. rewrite Hempty. unfold node_graph, all_users.
    rewrite g_nodes_add_nodes. simpl. tauto.
  - exact Hpairs.
  - intros u v Hu Hv. rewrite weight0_build, weight0_reply_graph.
    rewrite pair_total_none; [lia |].
    intros a b w Hin. unfold kept in Hin. apply filter_In in Hin.
    destruct Hin as [Hin _]. apply Counter_keys in Hin. simpl in Hin.
    apply Hpairs in Hin. subst a.
    destruct (same_pair deleted b u v) eqn:E; [| reflexivity].
    apply same_pair_true in E. intuition congruence.
Qed.

(* ------------------------------------------------------------------ *)
(** ** The [type] attribute *)

Lemma increase_weight_type (es : list edge) (a b : string) (w : Z)
    (e' : edge) :
  In e' (increase_weight es a b w) ->
  exists e, In e es /\ e_u e' = e_u e /\ e_v e' = e_v e /\
            e_type e' = e_type e.
Proof.
  induction es as [| e es IH]; simpl; [tauto |].
  destruct (joins a b e); simpl.
  - intros [Heq | Hin]; [subst e'; exists e; simpl; auto | exists e'; auto].
  - intros [Heq | Hin]; [subst e'; exists e; auto |].
    destruct (IH Hin) as [e0 [H0 H1]]. exists e0. auto.
Qed.

Lemma existsb_increase_weight (es : list edge) (a b u v : string) (w : Z) :
  existsb (joins u v) (increase_weight es a b w) = existsb (joins u v) es.
Proof.
  induction es as [| e es IH]; simpl; [reflexivity |].
  destruct (joins a b e); simpl; [rewrite joins_reweighted; reflexivity |].
  rewrite IH. reflexivity.
Qed.

Lemma has_edge_add_or_increase (G : Graph) (a b u v : string) (w : Z)
    (t : edge_type) :
  has_edge G u v = true -> has_edge (add_or_increase G a b w t) u v = true.
Proof.
  unfold add_or_increase, has_edge. intros H.
  destruct (existsb (joins a b) (g_edges G)); simpl.
  - rewrite existsb_increase_weight. assumption.
  - rewrite !g_edges_add_node, existsb_app, H. reflexivity.
Qed.

Lemma joins_own_endpoints (e : edge) : joins (e_u e) (e_v e) e = true.
Proof. unfold joins. apply same_pair_refl. Qed.

Lemma has_edge_own (G : Graph) (e : edge) :
  In e (g_edges G) -> has_edge G (e_u e) (e_v e) = true.
Proof.
  intros Hin. unfold has_edge. apply existsb_exists. exists e.
  split; [assumption | apply joins_own_endpoints].
Qed.

Lemma reply_graph_types (set_iter : list string -> list string)
    (posts comments : list row) (m : Z) (e : edge) :
  In e (g_edges (reply_graph set_iter posts comments m)) ->
  e_type e = author_comment.
Proof.
  unfold reply_graph, add_reply_edges.
  assert (forall e, In e (g_edges (node_graph set_iter posts comments)) ->
                    e_type e = author_comment) as Hn.
  { intros e0 Hin. unfold node_graph in Hin.
    rewrite g_edges_add_nodes in Hin. destruct Hin. }
  revert e Hn. generalize (node_graph set_iter posts comments).
  induction (Counter (author_comment_pairs (merge_left comments posts)))
    as [| [[a b] w] c IH]; intros G e HG; simpl; [apply HG |].
  apply IH. destruct (m <=? w)%Z; [| assumption].
  intros e0 Hin. unfold add_or_increase in Hin.
  destruct (has_edge G a b); simpl in Hin.
  - apply increase_weight_type in Hin.
    destruct Hin as [e1 [Hin [_ [_ ->]]]]. apply HG, Hin.
  - rewrite !g_edges_add_node in Hin. apply in_app_iff in Hin.
    destruct Hin as [Hin | [<- | []]]; [apply HG, Hin | reflexivity].
Qed.

(** What the co-comment pass keeps true of a graph [G] grown from [R]. *)
Lemma co_step_types (R G : Graph) (a b : string) :
  (forall e, In e (g_edges G) ->
     (e_type e = author_comment <-> has_edge R (e_u e) (e_v e) = true)) ->
  (forall u v, has_edge R u v = true -> has_edge G u v = true) ->
  (forall e, In e (g_edges (add_or_increase G a b 1 co_comment)) ->
     (e_type e = author_comment <-> has_edge R (e_u e) (e_v e) = true)) /\
  (forall u v, has_edge R u v = true ->
               has_edge (add_or_increase G a b 1 co_comment) u v = true).
Proof.
  intros Ht Hm. split.
  - intros e Hin. unfold add_or_increase in Hin.
    destruct (has_edge G a b) eqn:E; simpl in Hin.
    + apply increase_weight_type in Hin.
      destruct Hin as [e1 [Hin [-> [-> ->]]]]. apply Ht, Hin.
    + rewrite !g_edges_add_node in Hin. apply in_app_iff in Hin.
      destruct Hin as [Hin | [<- | []]]; [apply Ht, Hin |]. simpl.
      split; [discriminate |]. intros HR. apply Hm in HR. congruence.
  - intros u v HR. apply has_edge_add_or_increase, Hm, HR.
Qed.

(** X8.  The [type] of an edge of the returned graph tells which pass
    created it: it is [author_comment] exactly when the pair is an edge after
    the reply pass, and [co_comment] otherwise; co-comment increments on an
    existing edge leave its type as it is. *)
Theorem build_edge_type (set_iter : list string -> list string)
    (posts comments : list row) (m : Z) (e : edge) :
  In e (g_edges (build_interaction_graph set_iter posts comments m)) ->
  (e_type e = author_comment <->
   has_edge (reply_graph set_iter posts comments m) (e_u e) (e_v e) = true).
Proof.
  unfold build_interaction_graph, add_co_comment_edges.
  set (R := reply_graph set_iter posts comments m).
  assert (forall (gs : list (string * list row)) G,
            (forall e, In e (g_edges G) ->
               (e_type e = author_comment
                <-> has_edge R (e_u e) (e_v e) = true)) ->
            (forall u v, has_edge R u v = true -> has_edge G u v = true) ->
            forall e,
              In e (g_edges (fold_left
                               (fun G g => co_comment_group G (snd g)) gs G))
              -> (e_type e = author_comment
                  <-> has_edge R (e_u e) (e_v e) = true)) as Hfold.
  { induction gs as [| g gs IH]; intros G Ht Hm; simpl; [exact Ht |].
    assert ((forall e, In e (g_edges (co_comment_group G (snd g))) ->
               (e_type e = author_comment
                <-> has_edge R (e_u e) (e_v e) = true)) /\
            (forall u v, has_edge R u v = true ->
                         has_edge (co_comment_group G (snd g)) u v = true))
      as [Ht' Hm'].
    { unfold co_comment_group.
      destruct (List.length (unique (map author (snd g))) <? 2)%nat;
        [split; assumption |].
      revert G Ht Hm.
      induction (combinations2 (unique (map author (snd g))))
        as [| [u v] l IHl]; intros G Ht Hm; simpl; [split; assumption |].
      destruct (u =? v); [apply IHl; assumption |].
      destruct (co_step_types R G u v Ht Hm) as [Ht1 Hm1].
      apply IHl; assumption. }
    apply IH; assumption. }
  apply Hfold.
  - intros e0 Hin. split; [intros _; apply has_edge_own, Hin |].
    intros _. apply (reply_graph_types set_iter posts comments m e0 Hin).
  - auto.
Qed.

Lemma build_edge_type_witness :
  author_comment = author_comment <->
  has_edge (reply_graph first_seen [("p1", "alice")]
              [("p1", "bob"); ("p1", "carol")] 1) "alice" "bob" = true.
Proof.
  apply (build_edge_type first_seen [("p1", "alice")]
           [("p1", "bob"); ("p1", "carol")] 1
           (mkEdge "alice" "bob" 1 author_comment)).
  vm_compute. auto.
Defined.

(* ================================================================== *)
(** * Further properties of the ranking and of the top-N selection *)

Lemma firstn_skipn_length {A : Type} (k : nat) (l : list A) :
  firstn k l ++ skipn (List.length (firstn k l)) l = l.
Proof.
  revert k. induction l as [| x l IH]; intros [| k]; simpl; try reflexivity.
  rewrite IH. reflexivity.
Qed.

Lemma head_prefix {A : Type} (l : list A) (n : Z) :
  head l n ++ skipn (List.length (head l n)) l = l.
Proof.
  unfold head. destruct (0 <=? n)%Z; apply firstn_skipn_length.
Qed.

Lemma StronglySorted_app_order {A : Type} (R : A -> A -> Prop)
    (l1 l2 : list A) (x y : A) :
  StronglySorted R (l1 ++ l2) -> In x l1 -> In y l2 -> R x y.
Proof.
  induction l1 as [| z l1 IH]; simpl; intros Hs Hx Hy; [tauto |].
  inversion Hs as [| ? ? Hs' Hz]; subst. destruct Hx as [-> | Hx].
  - rewrite Forall_forall in Hz. apply Hz, in_app_iff. auto.
  - apply IH; assumption.
Qed.

Lemma key_ge_pagerank (a b : centrality_row) :
  key_ge a b -> (pagerank b <= pagerank a)%Q.
Proof.
  unfold key_ge, key_compare. intros H.
  destruct (Qcompare_spec (pagerank a) (pagerank b)); try lra.
  congruence.
Qed.

(** X9.  The records written by [save_top_influencers] are a prefix of the
    ranked table, for every [top_n]; every record that is written ranks at
    least as high as every record that is left out, and in particular has at
    least its PageRank. *)
Theorem top_n_outranks_the_rest
    (degree_centrality betweenness_centrality : Graph -> scores)
    (nx_pagerank : Graph -> pagerank_failure + scores) (G : Graph) (n : Z) :
  let table :=
    compute_centralities degree_centrality betweenness_centrality nx_pagerank
      (Some G) in
  let top := save_top_influencers table n in
  let rest := skipn (List.length top) table in
  table = top ++ rest /\
  forall r r', In r top -> In r' rest ->
               key_ge r r' /\ (pagerank r' <= pagerank r)%Q.
Proof.
  cbv zeta. unfold save_top_influencers.
  set (table := compute_centralities degree_centrality betweenness_centrality
                  nx_pagerank (Some G)).
  pose proof (head_prefix table n) as Hsplit.
  split; [symmetry; exact Hsplit |].
  intros r r' Hr Hr'.
  assert (key_ge r r') as Hge.
  { apply (StronglySorted_app_order key_ge (head table n)
             (skipn (List.length (head table n)) table)); try assumption.
    rewrite Hsplit. unfold table. rewrite compute_centralities_sorted.
    apply sort_values_desc_sorted. }
  split; [exact Hge | apply key_ge_pagerank, Hge].
Qed.


(* ================================================================== *)
(** * Properties of the column resolution and of the normalization *)

Lemma comment_post_col_In (columns : list string) :
  columns <> [] ->
  exists c, comment_post_col columns = ret c /\ In c columns.
Proof.
  intros Hne. unfold comment_post_col.
  destruct (find is_comment_post_name columns) as [c |] eqn:F1.
  - exists c. split; [reflexivity | apply (find_some _ _ F1)].
  - destruct (find looks_like_post_ref columns) as [c |] eqn:F2.
    + exists c. split; [reflexivity | apply (find_some _ _ F2)].
    + destruct columns as [| c0 rest]; [congruence |].
      exists c0. split; [reflexivity | left; reflexivity].
Qed.

Lemma comment_author_col_In (columns : list string) :
  columns <> [] ->
  exists c, comment_author_col columns = ret c /\ In c columns.
Proof.
  intros Hne. unfold comment_author_col.
  destruct (find is_comment_author_name columns) as [c |] eqn:F1.
  - exists c. split; [reflexivity | apply (find_some _ _ F1)].
  - destruct columns as [| c0 [| c1 rest]]; [congruence | |].
    + exists c0. split; [reflexivity | left; reflexivity].
    + exists c1. split; [reflexivity | right; left; reflexivity].
Qed.

Lemma resolve_comment_columns_nonempty (columns : list string) :
  columns <> [] ->
  exists p a, resolve_comment_columns columns = inr (p, a) /\
              In p columns /\ In a columns.
Proof.
  intros Hne.
  destruct (comment_post_col_In columns Hne) as [p [Hp Hpin]].
  destruct (comment_author_col_In columns Hne) as [a [Ha Hain]].
  exists p, a. unfold resolve_comment_columns. rewrite Hp, Ha. simpl. auto.
Qed.

Lemma resolve_comment_columns_In (columns : list string) (p a : string) :
  resolve_comment_columns columns = inr (p, a) ->
  In p columns /\ In a columns.
Proof.
  intros H. destruct columns as [| c0 rest] eqn:E; [discriminate |].
  rewrite <- E in *.
  destruct (resolve_comment_columns_nonempty columns) as [p' [a' [H' Hin]]];
    [rewrite E; discriminate |].
  rewrite H in H'. inversion H'; subst. exact Hin.
Qed.

(** X11.  The resolution of the comment columns fails only for a relation
    without columns, with an [IndexError]; otherwise it returns two names,
    each of them a column of the relation. *)
Theorem resolve_comment_columns_total (columns : list string) :
  match resolve_comment_columns columns with
  | inl e => e = IndexError /\ columns = []
  | inr (p, a) => columns <> [] /\ In p columns /\ In a columns
  end.
Proof.
  destruct columns as [| c0 rest] eqn:E; [split; reflexivity |].
  rewrite <- E.
  assert (columns <> []) as Hne by (rewrite E; discriminate).
  destruct (resolve_comment_columns_nonempty columns Hne)
    as [p [a [Hres [Hp Ha]]]].
  rewrite Hres. auto.
Qed.

(* ------------------------------------------------------------------ *)
(** ** Frames *)

Lemma has_column_In (df : DataFrame) (name : string) :
  has_column df name = true <-> In name (df_columns df).
Proof. apply mem_In. Qed.

Lemma has_column_assign (df : DataFrame) (name c : string)
    (value : nat -> (string -> cell) -> cell) :
  has_column (assign df name value) c
  = has_column df c || String.eqb c name.
Proof.
  unfold assign, has_column at 1. simpl.
  destruct (has_column df name) eqn:E.
  - fold (has_column df c). destruct (String.eqb_spec c name); subst.
    + rewrite E. reflexivity.
    + rewrite orb_false_r. reflexivity.
  - unfold mem. rewrite existsb_app. simpl. rewrite orb_false_r.
    reflexivity.
Qed.



Lemma map_combine_snd {A B C : Type} (f : B -> C) (l1 : list A)
    (l2 : list B) :
  List.length l1 = List.length l2 ->
  map (fun ab => f (snd ab)) (combine l1 l2) = map f l2.
Proof.
  revert l2. induction l1 as [| a l1 IH]; intros [| b l2] H;
    simpl in *; try discriminate; [reflexivity |].
  rewrite IH by congruence. reflexivity.
Qed.

(** Reading a column other than the assigned one gives the old cells. *)
Lemma assign_other (df : DataFrame) (name c : string)
    (value : nat -> (string -> cell) -> cell) :
  c <> name ->
  map (fun r => r c) (df_rows (assign df name value))
  = map (fun r => r c) (df_rows df).
Proof.
  intros Hne. unfold assign. simpl. rewrite map_map.
  apply String.eqb_neq in Hne.
  rewrite (map_ext _ (fun ir => snd ir c)) by (intros ir; rewrite Hne; reflexivity).
  apply (map_combine_snd (fun r => r c)). apply length_seq.
Qed.

(** Reading the assigned column gives the assigned values. *)
Lemma assign_same (df : DataFrame) (name : string)
    (value : nat -> (string -> cell) -> cell) :
  map (fun r => r name) (df_rows (assign df name value))
  = map (fun ir => value (fst ir) (snd ir))
        (combine (seq 0 (List.length (df_rows df))) (df_rows df)).
Proof.
  unfold assign. simpl. rewrite map_map. apply map_ext.
  intros ir. rewrite String.eqb_refl. reflexivity.
Qed.

Lemma select2_ok (df : DataFrame) (a b : string) :
  has_column df a = true -> has_column df b = true ->
  select2 df a b = inr (map (fun r => (r a, r b)) (df_rows df)).
Proof. intros Ha Hb. unfold select2. rewrite Ha, Hb. reflexivity. Qed.

Lemma normalize_rows_ok (strip : string -> string) (df : DataFrame)
    (a b : string) :
  has_column df a = true -> has_column df b = true ->
  normalize_rows strip df a b
  = inr (map (fun r => (strip (fillna (r a)), fillna (r b))) (df_rows df)).
Proof.
  intros Ha Hb. unfold normalize_rows. rewrite select2_ok by assumption.
  simpl. rewrite map_map. reflexivity.
Qed.

Lemma post_author_col_In (columns : list string) (c : string) :
  post_author_col columns = Some c -> In c columns.
Proof.
  unfold post_author_col.
  destruct (find is_post_author_name columns) as [c' |] eqn:F.
  - intros H. inversion H; subst. apply (find_some _ _ F).
  - intros H. apply (find_some _ _ H).
Qed.

Lemma post_id_col_In (columns : list string) (c : string) :
  post_id_col columns = Some c -> In c columns.
Proof.
  unfold post_id_col.
  destruct (find is_post_id_name columns) as [c' |] eqn:F.
  - intros H. inversion H; subst. apply (find_some _ _ F).
  - intros H. apply (find_some _ _ H).
Qed.

(** Without an author column found, the frame has no column [author]:
    the [get] of line 57 always falls back on ["[unknown]"]. *)
Lemma no_author_column (columns : list string) :
  post_author_col columns = None -> ~ In "author" columns.
Proof.
  unfold post_author_col.
  destruct (find is_post_author_name columns) eqn:F; [discriminate |].
  intros _ Hin. pose proof (find_none _ _ F "author" Hin) as H.
  vm_compute in H. discriminate.
Qed.

(** Without an id column found, the frame has no column [permalink] and no
    column [url]: lines 61-66 are never taken. *)
Lemma no_permalink_url_column (columns : list string) :
  post_id_col columns = None ->
  ~ In "permalink" columns /\ ~ In "url" columns.
Proof.
  unfold post_id_col.
  destruct (find is_post_id_name columns) eqn:F; [discriminate |].
  intros _. split; intros Hin;
    [pose proof (find_none _ _ F "permalink" Hin) as H
    | pose proof (find_none _ _ F "url" Hin) as H];
    vm_compute in H; discriminate.
Qed.

Lemma has_column_false (df : DataFrame) (name : string) :
  ~ In name (df_columns df) -> has_column df name = false.
Proof. intros H. apply mem_false, H. Qed.



(** The frame, the id column and the author column after lines 32-69, by
    the outcome of the resolution. *)
Lemma prepare_posts_cases (df : DataFrame) :
  prepare_posts df
  = match post_author_col (df_columns df), post_id_col (df_columns df) with
    | Some a, Some c => (df, c, a)
    | None, Some c =>
        (assign df "post_author" (fun _ _ => Some "[unknown]"),
         c, "post_author")
    | Some a, None =>
        (assign df "post_id" (fun i _ => Some (index_str i)), "post_id", a)
    | None, None =>
        (assign (assign df "post_author" (fun _ _ => Some "[unknown]"))
           "post_id" (fun i _ => Some (index_str i)),
         "post_id", "post_author")
    end.
Proof.
  unfold prepare_posts.
  destruct (post_author_col (df_columns df)) as [a |] eqn:Ea;
    destruct (post_id_col (df_columns df)) as [c |] eqn:Ec; simpl.
  - reflexivity.
  - destruct (no_permalink_url_column _ Ec) as [Hp Hu].
    rewrite (has_column_false df "permalink" Hp),
      (has_column_false df "url" Hu). reflexivity.
  - rewrite (has_column_false df "author" (no_author_column _ Ea)).
    reflexivity.
  - rewrite (has_column_false df "author" (no_author_column _ Ea)).
    destruct (no_permalink_url_column _ Ec) as [Hp Hu].
    rewrite !has_column_assign.
    rewrite (has_column_false df "permalink" Hp),
      (has_column_false df "url" Hu). reflexivity.
Qed.


Lemma map_const {A B : Type} (b : B) (l : list A) (x : B) :
  In x (map (fun _ => b) l) -> x = b.
Proof. intros H. apply in_map_iff in H. destruct H as [_ [<- _]]. reflexivity. Qed.


Lemma normalize_comments_rows (strip : string -> string) (df : DataFrame)
    (p a : string) :
  resolve_comment_columns (df_columns df) = inr (p, a) ->
  normalize_comments strip df
  = inr (map (fun r => (strip (fillna (r p)), fillna (r a))) (df_rows df)).
Proof.
  intros E. destruct (resolve_comment_columns_In _ _ _ E) as [Hp Ha].
  unfold normalize_comments, comment_columns. rewrite E. simpl.
  apply normalize_rows_ok; apply has_column_In; assumption.
Qed.


(** X13.  The normalization of the comment relation fails only for a frame
    without columns, with the [IndexError] of the resolution; it never
    raises a [KeyError].  Otherwise it keeps every row: the stripped cell
    of the post column and the cell of the author column, a missing cell
    read as ["[deleted]"]. *)
Theorem normalize_comments_total (strip : string -> string) (df : DataFrame) :
  (df_columns df = [] ->
   normalize_comments strip df = inl (ColumnError IndexError)) /\
  (df_columns df <> [] ->
   exists p a,
     resolve_comment_columns (df_columns df) = inr (p, a) /\
     In p (df_columns df) /\ In a (df_columns df) /\
     normalize_comments strip df
     = inr (map (fun r => (strip (fillna (r p)), fillna (r a)))
                (df_rows df))).
Proof.
  split.
  - intros Hc. unfold normalize_comments, comment_columns. rewrite Hc.
    reflexivity.
  - intros Hne.
    destruct (resolve_comment_columns_nonempty _ Hne) as [p [a [E [Hp Ha]]]].
    exists p, a. split; [exact E |]. split; [exact Hp |].
    split; [exact Ha | apply normalize_comments_rows, E].
Qed.





(** X15.  Rows whose post id is missing are treated as rows of one post,
    whose id is the stripped ["[deleted]"]: two comment rows without a post
    id and with different authors are joined by a co-comment edge; and, with
    a threshold of at most 1, a comment row without a post id is joined to
    the author of every post row without a post id (unless the commenter is
    empty, ["[deleted]"] or that author). *)
Theorem missing_post_ids_form_one_post
    (strip : string -> string) (set_iter : list string -> list string)
    (posts_df comments_df : DataFrame) (posts comments : list row)
    (id_col author_col p a : string) (m : Z) :
  post_id_col (df_columns posts_df) = Some id_col ->
  post_author_col (df_columns posts_df) = Some author_col ->
  resolve_comment_columns (df_columns comments_df) = inr (p, a) ->
  normalize_posts strip posts_df = inr posts ->
  normalize_comments strip comments_df = inr comments ->
  let G := build_interaction_graph set_iter posts comments m in
  (forall r1 r2,
      In r1 (df_rows comments_df) -> In r2 (df_rows comments_df) ->
      r1 p = None -> r2 p = None ->
      fillna (r1 a) <> fillna (r2 a) ->
      has_edge G (fillna (r1 a)) (fillna (r2 a)) = true) /\
  (forall rp rc,
      In rp (df_rows posts_df) -> In rc (df_rows comments_df) ->
      rp id_col = None -> rc p = None ->
      fillna (rc a) <> "" -> fillna (rc a) <> deleted ->
      fillna (rc a) <> fillna (rp author_col) ->
      (m <= 1)%Z ->
      has_edge G (fillna (rp author_col)) (fillna (rc a)) = true).
Proof.
  intros Hid Hauth Hres Hposts Hcomments. cbv zeta.
  assert (comments
          = map (fun r => (strip (fillna (r p)), fillna (r a)))
                (df_rows comments_df)) as Hc.
  { pose proof (normalize_comments_rows strip comments_df p a Hres) as Hn.
    rewrite Hcomments in Hn. inversion Hn. reflexivity. }
  assert (posts
          = map (fun r => (strip (fillna (r id_col)), fillna (r author_col)))
                (df_rows posts_df)) as Hp.
  { unfold normalize_posts in Hposts. rewrite prepare_posts_cases in Hposts.
    rewrite Hid, Hauth in Hposts.
    rewrite normalize_rows_ok in Hposts.
    - inversion Hposts. reflexivity.
    - apply has_column_In, (post_id_col_In _ _ Hid).
    - apply has_column_In, (post_author_col_In _ _ Hauth). }
  assert (forall rc, In rc (df_rows comments_df) -> rc p = None ->
                     In (strip deleted, fillna (rc a)) comments) as Hrow.
  { intros rc Hin Hnone. rewrite Hc. apply in_map_iff. exists rc.
    rewrite Hnone. split; [reflexivity | assumption]. }
  split.
  - intros r1 r2 H1 H2 Hn1 Hn2 Hne.
    apply (co_commenters_joined set_iter posts comments m (strip deleted));
      auto.
  - intros rp rc Hrp Hrc Hnp Hnc Hc1 Hc2 Hc3 Hm.
    apply reply_pair_joined; [assumption |].
    rewrite author_comment_pairs_flat. apply in_flat_map.
    exists (strip deleted, fillna (rc a)). split; [apply Hrow; assumption |].
    apply (reply_pair_of_matching_post posts (strip deleted) (fillna (rc a))
             (strip deleted, fillna (rp author_col))); auto.
    rewrite Hp. apply in_map_iff. exists rp. rewrite Hnp.
    split; [reflexivity | assumption].
Qed.

Lemma missing_post_ids_form_one_post_witness :
  has_edge
    (build_interaction_graph first_seen
       [("[deleted]", "alice")]
       [("[deleted]", "bob"); ("[deleted]", "carol")] 1)
    "bob" "carol" = true.
Proof.
  apply (proj1 (missing_post_ids_form_one_post no_strip first_seen
                  (frame_of ["id"; "author"] [[None; Some "alice"]])
                  (frame_of ["post_id"; "author"]
                     [[None; Some "bob"]; [None; Some "carol"]])
                  [("[deleted]", "alice")]
                  [("[deleted]", "bob"); ("[deleted]", "carol")]
                  "id" "author" "post_id" "author" 1
                  eq_refl eq_refl eq_refl eq_refl eq_refl)
           (row_of [("post_id", None); ("author", Some "bob")])
           (row_of [("post_id", None); ("author", Some "carol")])).
  - left. reflexivity.
  - right. left. reflexivity.
  - reflexivity.
  - reflexivity.
  - discriminate.
Defined.

(** X16.  A post frame in which no author column is found gives every post
    the author ["[unknown]"]: every reply pair then has ["[unknown]"] or
    ["[deleted]"] as its post author, and between two accounts other than
    these two only co-comment weight remains. *)
Theorem posts_without_author_column
    (strip : string -> string) (set_iter : list string -> list string)
    (df : DataFrame) (posts comments : list row) (m : Z) :
  post_author_col (df_columns df) = None ->
  normalize_posts strip df = inr posts ->
  (forall p, In p posts -> author p = "[unknown]") /\
  (forall a b,
      In (a, b) (author_comment_pairs (merge_left comments posts)) ->
      a = "[unknown]" \/ a = deleted) /\
  (forall u v,
      u <> "[unknown]" -> u <> deleted -> v <> "[unknown]" -> v <> deleted ->
      weight0 (build_interaction_graph set_iter posts comments m) u v
      = co_total u v comments).
Proof.
  intros Hnone Hposts.
  assert (forall p, In p posts -> author p = "[unknown]") as Hall.
  { unfold normalize_posts in Hposts. rewrite prepare_posts_cases in Hposts.
    rewrite Hnone in Hposts.
    assert (forall df' id_col,
              normalize_rows strip df' id_col "post_author" = inr posts ->
              (forall x, In x (map (fun r : string -> cell => r "post_author")
                                  (df_rows df')) -> x = Some "[unknown]") ->
              forall p, In p posts -> author p = "[unknown]") as Hrows.
    { intros df' id_col Hn Hcells p Hp. unfold normalize_rows, select2 in Hn.
      destruct (has_column df' id_col); [| discriminate].
      destruct (has_column df' "post_author"); [| discriminate].
      simpl in Hn. inversion Hn; subst posts. rewrite map_map in Hp.
      apply in_map_iff in Hp. destruct Hp as [r [<- Hr]].
      unfold author. cbn [fst snd].
      rewrite (Hcells (r "post_author")); [reflexivity |].
      apply (in_map (fun r : string -> cell => r "post_author")), Hr. }
    destruct (post_id_col (df_columns df)) as [c |].
    - apply (Hrows _ _ Hposts). intros x Hx. rewrite assign_same in Hx.
      apply map_const in Hx. exact Hx.
    - apply (Hrows _ _ Hposts). intros x Hx.
      rewrite assign_other in Hx by discriminate.
      rewrite assign_same in Hx. apply map_const in Hx. exact Hx. }
  assert (forall a b,
             In (a, b) (author_comment_pairs (merge_left comments posts)) ->
             a = "[unknown]" \/ a = deleted) as Hpairs.
  { intros a b Hin. apply In_author_comment_pairs in Hin.
    destruct Hin as [c [_ Hin]]. apply reply_pair_shape in Hin.
    destruct Hin as (_ & _ & _ & _ & [[p [Hp [_ Hp3]]] | [Ha _]]).
    - left. rewrite <- Hp3. apply Hall, Hp.
    - right. exact Ha. }
  split; [exact Hall |]. split; [exact Hpairs |].
  intros u v Hu1 Hu2 Hv1 Hv2. rewrite weight0_build, weight0_reply_graph.
  rewrite pair_total_none; [lia |].
  intros a b w Hin. unfold kept in Hin. apply filter_In in Hin.
  destruct Hin as [Hin _]. apply Counter_keys in Hin. simpl in Hin.
  apply Hpairs in Hin.
  destruct (same_pair a b u v) eqn:E; [| reflexivity].
  apply same_pair_true in E. intuition congruence.
Qed.

Lemma posts_without_author_column_witness :
  weight0 (build_interaction_graph first_seen
             [("0", "[unknown]"); ("1", "[unknown]")]
             [("0", "bob"); ("0", "carol")] 1) "bob" "carol"
  = co_total "bob" "carol" [("0", "bob"); ("0", "carol")].
Proof.
  apply (proj2 (proj2 (posts_without_author_column no_strip first_seen
                  (frame_of ["title"; "score"]
                     [[Some "x"; Some "1"]; [None; Some "2"]])
                  [("0", "[unknown]"); ("1", "[unknown]")]
                  [("0", "bob"); ("0", "carol")] 1 eq_refl eq_refl))
           "bob" "carol"); discriminate.
Defined.

(* ------------------------------------------------------------------ *)
(** ** [detect_superspreaders] *)

Lemma NoDup_add_node (G : Graph) (u : string) :
  NoDup (g_nodes G) -> NoDup (g_nodes (add_node G u)).
Proof.
  intros H. unfold add_node. destruct (has_node G u) eqn:E; [assumption |].
  simpl. apply (Permutation_NoDup (Permutation_cons_append (g_nodes G) u)).
  constructor; [| assumption].
  intros Hin. apply has_node_In in Hin. congruence.
Qed.

Lemma NoDup_add_or_increase (G : Graph) (a b : string) (w : Z)
    (t : edge_type) :
  NoDup (g_nodes G) -> NoDup (g_nodes (add_or_increase G a b w t)).
Proof.
  intros H. unfold add_or_increase, add_edge.
  destruct (has_edge G a b); simpl; [assumption |].
  apply NoDup_add_node, NoDup_add_node, H.
Qed.

(** No account is twice among the nodes of the returned graph. *)
Lemma NoDup_build (set_iter : list string -> list string)
    (posts comments : list row) (m : Z) :
  NoDup (g_nodes (build_interaction_graph set_iter posts comments m)).
Proof.
  unfold build_interaction_graph, add_co_comment_edges.
  assert (NoDup (g_nodes (reply_graph set_iter posts comments m))) as Hr.
  { unfold reply_graph, add_reply_edges.
    assert (NoDup (g_nodes (node_graph set_iter posts comments))) as Hn.
    { unfold node_graph.
      assert (forall l G, NoDup (g_nodes G) ->
                          NoDup (g_nodes (fold_left add_node l G))) as H.
      { induction l as [| x l IH]; intros G HG; simpl; [assumption |].
        apply IH, NoDup_add_node, HG. }
      apply H. constructor. }
    revert Hn. generalize (node_graph set_iter posts comments).
    induction (Counter (author_comment_pairs (merge_left comments posts)))
      as [| [[a b] w] c IH]; intros G HG; simpl; [assumption |].
    apply IH. destruct (m <=? w)%Z; [| assumption].
    apply NoDup_add_or_increase, HG. }
  revert Hr. generalize (reply_graph set_iter posts comments m).
  induction (groupby comments) as [| g gs IH]; intros G HG; simpl;
    [assumption |].
  apply IH. unfold co_comment_group.
  destruct (List.length (unique (map author (snd g))) <? 2)%nat;
    [assumption |].
  revert HG. generalize G.
  induction (combinations2 (unique (map author (snd g)))) as [| [u v] l IHl];
    intros G' HG'; simpl; [assumption |].
  apply IHl. destruct (u =? v); [assumption |].
  apply NoDup_add_or_increase, HG'.
Qed.

Lemma build_interaction_graph_csv_inv
    (strip : string -> string) (set_iter : list string -> list string)
    (world : Type) (path_exists : world -> string -> bool)
    (read_csv : world -> string -> library_error + DataFrame)
    (w : world) (posts_csv comments_csv : string) (m : Z) (G : Graph) :
  build_interaction_graph_csv strip set_iter world path_exists read_csv
    w posts_csv comments_csv m = inr G ->
  exists posts comments,
    G = build_interaction_graph set_iter posts comments m.
Proof.
  unfold build_interaction_graph_csv, _read_csv_flex, call.
  destruct (path_exists w posts_csv);
    [destruct (read_csv w posts_csv) as [e | posts_df] |];
    cbn [bind_build]; try discriminate;
    (destruct (path_exists w comments_csv);
     [destruct (read_csv w comments_csv) as [e | comments_df] |]);
    cbn [bind_build]; try discriminate.
  destruct (prepare_posts posts_df) as [[df' id_col] author_col].
  destruct (comment_columns comments_df) as [e | cols]; [discriminate |].
  cbn [bind_build].
  destruct (normalize_rows strip df' id_col author_col) as [e | posts];
    [discriminate |]. cbn [bind_build].
  destruct (normalize_rows strip comments_df (fst cols) (snd cols))
    as [e | comments]; [discriminate |]. cbn [bind_build].
  intros H. inversion H. eauto.
Qed.

(** X17.  [detect_superspreaders] builds the graph with threshold 1 and
    fails as that construction fails.  The ranking it computes has one row
    for each node of the graph and no account twice.  It then creates the
    directory of [out_csv] and writes the selection of [top_n] rows
    ([min(top_n, |V|)] rows for [top_n >= 0]), then creates the directory of
    [out_graph]; the first of these calls that raises ends the run with its
    exception.  With an empty selection it then returns without rendering;
    otherwise it renders, and the exception of the rendering propagates.
    For [top_n >= 1] the selection is empty exactly when the graph has no
    node.  When it returns, it returns the whole ranking, whatever [top_n]
    is. *)
Theorem detect_superspreaders_outcome
    (strip : string -> string) (set_iter : list string -> list string)
    (world : Type) (path_exists : world -> string -> bool)
    (read_csv : world -> string -> library_error + DataFrame)
    (degree_centrality betweenness_centrality : Graph -> scores)
    (nx_pagerank : Graph -> pagerank_failure + scores)
    (dirname : string -> string)
    (makedirs : string -> world -> library_error + world)
    (to_csv : list centrality_row -> string -> world -> library_error + world)
    (render : Graph -> list centrality_row -> list string -> string -> world
              -> library_error + world)
    (w : world) (posts_csv comments_csv out_csv out_graph : string)
    (top_n : Z) :
  let result :=
    detect_superspreaders strip set_iter world path_exists read_csv
      degree_centrality betweenness_centrality nx_pagerank
      dirname makedirs to_csv render
      w posts_csv comments_csv out_csv out_graph top_n in
  match
    build_interaction_graph_csv strip set_iter world path_exists read_csv
      w posts_csv comments_csv 1
  with
  | inl e => result = inl e
  | inr G =>
      let table :=
        compute_centralities degree_centrality betweenness_centrality
          nx_pagerank (Some G) in
      Permutation (g_nodes G) (map user table) /\
      NoDup (map user table) /\
      ((0 <= top_n)%Z ->
       List.length (save_top_influencers table top_n)
       = Nat.min (Z.to_nat top_n) (List.length (g_nodes G))) /\
      ((1 <= top_n)%Z -> (top_nodes table top_n = [] <-> g_nodes G = [])) /\
      (forall df w', result = inr (df, w') -> df = table) /\
      match makedirs (dirname out_csv) w with
      | inl e => result = inl (Raised e)
      | inr w1 =>
          match to_csv (save_top_influencers table top_n) out_csv w1 with
          | inl e => result = inl (Raised e)
          | inr w2 =>
              match makedirs (dirname out_graph) w2 with
              | inl e => result = inl (Raised e)
              | inr w3 =>
                  (top_nodes table top_n = [] -> result = inr (table, w3)) /\
                  (top_nodes table top_n <> [] ->
                   result
                   = match
                       render G table (top_nodes table top_n) out_graph w3
                     with
                     | inl e => inl (Raised e)
                     | inr w4 => inr (table, w4)
                     end)
              end
          end
      end
  end.
Proof.
  cbv zeta. unfold detect_superspreaders.
  destruct (build_interaction_graph_csv strip set_iter world path_exists
              read_csv w posts_csv comments_csv 1) as [e | G] eqn:E;
    [reflexivity |].
  cbn [bind_build].
  set (table := compute_centralities degree_centrality betweenness_centrality
                  nx_pagerank (Some G)).
  assert (Permutation (g_nodes G) (map user table)) as Hperm.
  { unfold table. rewrite compute_centralities_sorted.
    assert (map user (centrality_rows degree_centrality
                        betweenness_centrality nx_pagerank G) = g_nodes G)
      as Hu by (unfold centrality_rows; rewrite map_map; apply map_id).
    rewrite <- Hu at 1. apply Permutation_map, sort_values_desc_perm. }
  assert (List.length table = List.length (g_nodes G)) as Hlen.
  { rewrite (Permutation_length Hperm). symmetry. apply length_map. }
  split; [exact Hperm |]. split; [| split; [| split; [| split]]].
  - apply (Permutation_NoDup Hperm).
    destruct (build_interaction_graph_csv_inv _ _ _ _ _ _ _ _ _ _ E)
      as [posts [comments ->]].
    apply NoDup_build.
  - intros Hn. unfold save_top_influencers, head.
    destruct (Z.leb_spec 0 top_n); [| lia].
    rewrite length_firstn, Hlen. reflexivity.
  - intros Hn. unfold top_nodes, head.
    destruct (Z.leb_spec 0 top_n); [| lia].
    destruct table as [| r rows].
    + simpl in Hlen. rewrite firstn_nil. simpl.
      destruct (g_nodes G); [tauto | discriminate].
    + destruct (Z.to_nat top_n) as [| k] eqn:Ek; [lia |]. simpl.
      destruct (g_nodes G); [discriminate |]. split; discriminate.
  - intros df w'. unfold save_top_influencers_to, draw_graph, call.
    destruct (makedirs (dirname out_csv) w) as [e1 | w1];
      cbn [bind_build]; [discriminate |].
    destruct (to_csv (save_top_influencers table top_n) out_csv w1)
      as [e2 | w2]; cbn [bind_build]; [discriminate |].
    destruct (makedirs (dirname out_graph) w2) as [e3 | w3];
      cbn [bind_build]; [discriminate |].
    destruct (top_nodes table top_n) as [| n ns]; cbn [bind_build].
    + intros H. inversion H. reflexivity.
    + destruct (render G table (n :: ns) out_graph w3) as [e4 | w4];
        cbn [bind_build]; [discriminate |].
      intros H. inversion H. reflexivity.
  - unfold save_top_influencers_to, draw_graph, call.
    destruct (makedirs (dirname out_csv) w) as [e1 | w1];
      cbn [bind_build]; [reflexivity |].
    destruct (to_csv (save_top_influencers table top_n) out_csv w1)
      as [e2 | w2]; cbn [bind_build]; [reflexivity |].
    destruct (makedirs (dirname out_graph) w2) as [e3 | w3];
      cbn [bind_build]; [reflexivity |].
    destruct (top_nodes table top_n) as [| n ns]; cbn [bind_build].
    + split; [reflexivity | congruence].
    + split; [discriminate |]. intros _.
      destruct (render G table (n :: ns) out_graph w3); reflexivity.
Qed.

Lemma detect_superspreaders_outcome_witness :
  detect_superspreaders no_strip first_seen unit sample_exists sample_read_csv
    edgeless_zero edgeless_zero edgeless_pagerank
    posix_dirname sample_makedirs sample_to_csv sample_render
    tt "posts.csv" "removed.csv" "top.csv" "output/charts/graph.png" 1
  = inl (Raised (LibraryError "FileNotFoundError")) /\
  exists table,
    detect_superspreaders no_strip first_seen unit sample_exists
      sample_read_csv edgeless_zero edgeless_zero edgeless_pagerank
      posix_dirname sample_makedirs sample_to_csv sample_render
      tt "posts.csv" "removed.csv" "output/top.csv"
      "output/charts/graph.png" 1
    = inr (table, tt) /\
    map user table = ["alice"; deleted].
Proof.
  split.
  - pose proof (detect_superspreaders_outcome no_strip first_seen unit
                  sample_exists sample_read_csv
                  edgeless_zero edgeless_zero edgeless_pagerank
                  posix_dirname sample_makedirs sample_to_csv sample_render
                  tt "posts.csv" "removed.csv" "top.csv"
                  "output/charts/graph.png" 1) as H.
    vm_compute in H. vm_compute. tauto.
  - pose proof (detect_superspreaders_outcome no_strip first_seen unit
                  sample_exists sample_read_csv
                  edgeless_zero edgeless_zero edgeless_pagerank
                  posix_dirname sample_makedirs sample_to_csv sample_render
                  tt "posts.csv" "removed.csv" "output/top.csv"
                  "output/charts/graph.png" 1) as H.
    cbv zeta in H.
    destruct (build_interaction_graph_csv no_strip first_seen unit
                sample_exists sample_read_csv tt "posts.csv" "removed.csv" 1)
      as [e | G] eqn:E; [vm_compute in E; discriminate |].
    destruct H as (_ & _ & _ & _ & _ & H).
    assert (G = mkGraph ["alice"; deleted] []) as ->
      by (vm_compute in E; inversion E; reflexivity).
    eexists. split.
    + vm_compute in H. vm_compute. apply H. discriminate.
    + vm_compute. reflexivity.
Defined.

(* ------------------------------------------------------------------ *)
(** ** The files of the pipeline *)

(** X18.  On the two files that the pipeline itself writes, whatever their
    rows: the post ids are the stripped cells of the column [url]; no author
    column is found among the post columns, so every post author is
    ["[unknown]"]; and the comment relation is read from the columns
    [post_id] and [comment_author]. *)
Theorem pipeline_files_resolution (strip : string -> string)
    (posts_df comments_df : DataFrame) :
  df_columns posts_df = raw_posts_columns ->
  df_columns comments_df = comments_raw_columns ->
  normalize_posts strip posts_df
  = inr (map (fun r => (strip (fillna (r "url")), "[unknown]"))
             (df_rows posts_df)) /\
  normalize_comments strip comments_df
  = inr (map (fun r => (strip (fillna (r "post_id")),
                        fillna (r "comment_author")))
             (df_rows comments_df)).
Proof.
  intros Hp Hc. split.
  - unfold normalize_posts. rewrite prepare_posts_cases, Hp.
    change (post_author_col raw_posts_columns) with (@None string).
    change (post_id_col raw_posts_columns) with (Some "url").
    cbv beta iota. rewrite normalize_rows_ok.
    + f_equal. unfold assign. cbn [df_rows]. rewrite map_map.
      cbn [String.eqb Ascii.eqb Bool.eqb fst snd fillna].
      apply (map_combine_snd
               (fun r : string -> cell =>
                  (strip (fillna (r "url")), "[unknown]"))).
      apply length_seq.
    + rewrite has_column_assign. unfold has_column. rewrite Hp. reflexivity.
    + rewrite has_column_assign, String.eqb_refl. apply orb_true_r.
  - apply normalize_comments_rows. rewrite Hc. reflexivity.
Qed.

Lemma pipeline_files_resolution_witness :
  normalize_posts no_strip
    (frame_of raw_posts_columns
       [[Some "Music"; Some "a song"; Some "12"; Some "3"; Some "1.7e9";
         Some "https://example.org/a"]])
  = inr [("https://example.org/a", "[unknown]")].
Proof.
  apply (pipeline_files_resolution no_strip
           (frame_of raw_posts_columns
              [[Some "Music"; Some "a song"; Some "12"; Some "3";
                Some "1.7e9"; Some "https://example.org/a"]])
           (frame_of comments_raw_columns [[Some "x"; Some "bob"]])
           eq_refl eq_refl).
Defined.
